(** * Tree-query helpers of [lib/utils/utils.js], embedded over a store of
    JavaScript objects.

    The helpers receive syntax-tree nodes that point at each other in both
    directions ([parent] going up, [callee], [object], [left], ... going
    down) and are compared by identity ([===]).  Nodes therefore live in a
    store indexed by locations; a value is a primitive or a reference into
    the store.  Every helper is written in a small state-and-error monad
    over that store, statement by statement as in the source. *)

From Stdlib Require Import ZArith Ascii String DecimalString DecimalNat.
From stdpp Require Import gmap strings list.

Local Open Scope string_scope.
Local Open Scope list_scope.
Local Open Scope nat_scope.

(** ** Values, cells and the store *)

Definition loc := nat.

(** Numbers are restricted to integers (line numbers, order ranks, literal
    integers): [NaN], fractions and the negative zero are not represented. *)
Inductive value : Type :=
  | VUndefined
  | VNull
  | VBool (b : bool)
  | VNum (n : Z)
  | VStr (s : string)
  | VRef (l : loc).

(** An object is its list of own fields in insertion order (the order of
    [Object.keys]); an array is its list of elements (no holes). Members
    inherited from prototypes are outside the model: a read sees own
    properties only, and array methods are separate primitives. *)
Inductive cell : Type :=
  | CObj (fields : list (string * value))
  | CArr (elems : list value).

Arguments VNum n%_Z.
Arguments VRef l%_nat.

Abbreviation store := (gmap loc cell).

#[global] Instance value_eq_dec : EqDecision value.
Proof. solve_decision. Defined.

(** ** Outcomes and the monad *)

Inductive error : Type :=
  | TypeError     (* the exception JavaScript raises *)
  | Unsupported   (* the operation leaves the modelled fragment *)
  | OutOfFuel.    (* the recursion bound was reached *)

Inductive outcome (A : Type) : Type :=
  | Ret (a : A)
  | Err (e : error).
Arguments Ret {A} a.
Arguments Err {A} e.

Definition M (A : Type) : Type := store → outcome (A * store).

Definition ret {A} (a : A) : M A := fun h => Ret (a, h).
Definition fail {A} (e : error) : M A := fun _ => Err e.
Definition bind {A B} (m : M A) (k : A → M B) : M B :=
  fun h => match m h with
           | Ret (a, h') => k a h'
           | Err e => Err e
           end.
(** An operation that only inspects the store. *)
Definition reading {A} (f : store → outcome A) : M A :=
  fun h => match f h with
           | Ret a => Ret (a, h)
           | Err e => Err e
           end.

Declare Scope js_scope.
Delimit Scope js_scope with js.
Notation "x <- m ;; k" := (bind m (fun x => k))
  (at level 100, m at next level, right associativity) : js_scope.
Notation "m ;;; k" := (bind m (fun _ => k))
  (at level 100, right associativity) : js_scope.
Local Open Scope js_scope.

(** ** Primitive operations of the language *)

(** ToBoolean. *)
Definition truthy (v : value) : bool :=
  match v with
  | VUndefined | VNull => false
  | VBool b => b
  | VNum n => negb (n =? 0)%Z
  | VStr s => negb (String.eqb s "")
  | VRef _ => true
  end.

(** Strict equality [===]; on these values it is structural equality. *)
Definition strict_eq (a b : value) : bool := bool_decide (a = b).

(** Own field of an object; an absent field reads [undefined]. *)
Fixpoint field (fs : list (string * value)) (k : string) : value :=
  match fs with
  | [] => VUndefined
  | (k', v) :: fs' => if String.eqb k' k then v else field fs' k
  end.

Definition key_of_nat (n : nat) : string :=
  NilEmpty.string_of_uint (Nat.to_uint n).

(** A property key that is a canonical array index. *)
Definition index_of_key (k : string) : option nat :=
  match NilEmpty.uint_of_string k with
  | Some u =>
      let n := Nat.of_uint u in
      if String.eqb (key_of_nat n) k then Some n else None
  | None => None
  end.

Definition elem_at (es : list value) (i : nat) : value :=
  nth i es VUndefined.

Definition array_prop (es : list value) (k : string) : value :=
  if String.eqb k "length" then VNum (Z.of_nat (length es))
  else match index_of_key k with
       | Some i => elem_at es i
       | None => VUndefined
       end.

Definition string_prop (s : string) (k : string) : value :=
  if String.eqb k "length" then VNum (Z.of_nat (String.length s))
  else match index_of_key k with
       | Some i => match String.get i s with
                   | Some c => VStr (String c EmptyString)
                   | None => VUndefined
                   end
       | None => VUndefined
       end.

(** [v[k]] and [v.k]: reading from [undefined] or [null] throws; a
    location without a cell reads as an empty object. *)
Definition read_prop (h : store) (v : value) (k : string) : outcome value :=
  match v with
  | VUndefined | VNull => Err TypeError
  | VBool _ | VNum _ => Ret VUndefined
  | VStr s => Ret (string_prop s k)
  | VRef l =>
      match h !! l with
      | Some (CObj fs) => Ret (field fs k)
      | Some (CArr es) => Ret (array_prop es k)
      | None => Ret VUndefined
      end
  end.

Definition get (v : value) (k : string) : M value :=
  reading (fun h => read_prop h v k).

(** [v[i]] with a numeric index. *)
Definition read_index (h : store) (v : value) (i : nat) : outcome value :=
  match v with
  | VRef l =>
      match h !! l with
      | Some (CArr es) => Ret (elem_at es i)
      | _ => read_prop h v (key_of_nat i)
      end
  | _ => read_prop h v (key_of_nat i)
  end.

Definition get_index (v : value) (i : nat) : M value :=
  reading (fun h => read_index h v i).

(** The receiver of [filter], [map] or [shift]: these exist on arrays only,
    so any other receiver makes the call throw. *)
Definition read_array (h : store) (v : value) : outcome (list value) :=
  match v with
  | VRef l =>
      match h !! l with
      | Some (CArr es) => Ret es
      | _ => Err TypeError
      end
  | _ => Err TypeError
  end.

Definition as_array (v : value) : M (list value) :=
  reading (fun h => read_array h v).

(** [Array.prototype.filter] with a callback that may itself throw; the
    result is a new array, given by its elements. *)
Fixpoint array_filter (p : value → M value) (es : list value) : M (list value) :=
  match es with
  | [] => ret []
  | e :: es' =>
      keep <- p e ;;
      rest <- array_filter p es' ;;
      ret (if truthy keep then e :: rest else rest)
  end.

(** [Array.prototype.map]. *)
Fixpoint array_map (f : value → M value) (es : list value) : M (list value) :=
  match es with
  | [] => ret []
  | e :: es' =>
      x <- f e ;;
      rest <- array_map f es' ;;
      ret (x :: rest)
  end.

(** ** Node type predicates ([lib/utils/types.js]) *)

(** Modelled from the spec: [lib/utils/types.js] is not part of the
    sources at hand. The spec describes [type] as the tag that
    discriminates node variants, and each predicate as the test for one
    variant; a value that is not an object carrying the tag answers
    [false]. *)
Definition has_type (h : store) (v : value) (tag : string) : bool :=
  match v with
  | VRef l =>
      match h !! l with
      | Some (CObj fs) => strict_eq (field fs "type") (VStr tag)
      | _ => false
      end
  | _ => false
  end.

Definition is_type (tag : string) (v : value) : M bool :=
  reading (fun h => Ret (has_type h v tag)).

Definition isAssignmentExpression := is_type "AssignmentExpression".
Definition isCallExpression := is_type "CallExpression".
Definition isIdentifier := is_type "Identifier".
Definition isLiteral := is_type "Literal".
Definition isMemberExpression := is_type "MemberExpression".
Definition isNewExpression := is_type "NewExpression".
Definition isObjectPattern := is_type "ObjectPattern".
Definition isOptionalCallExpression := is_type "OptionalCallExpression".
Definition isOptionalMemberExpression := is_type "OptionalMemberExpression".

(** ** The helpers *)

(** The [while (isMemberExpression(callee))] loop of [parseCallee]; it
    returns the callee it stopped at and the names pushed so far. *)
Fixpoint parseCallee_loop (fuel : nat) (callee : value)
    (parsedCallee : list value) : M (value * list value) :=
  match fuel with
  | O => fail OutOfFuel
  | S fuel' =>
      more <- isMemberExpression callee ;;
      if more : bool then
        property <- get callee "property" ;;
        named <- isIdentifier property ;;
        parsedCallee' <-
          (if named : bool then
             name <- get property "name" ;;
             ret (parsedCallee ++ [name])
           else ret parsedCallee) ;;
        object <- get callee "object" ;;
        parseCallee_loop fuel' object parsedCallee'
      else ret (callee, parsedCallee)
  end.

(** [push] appends to the local array [parsedCallee], which is reversed
    on return. *)
Definition parseCallee (fuel : nat) (node : value) : M (list value) :=
  isCall <- isCallExpression node ;;
  isNew <- (if isCall : bool then ret true else isNewExpression node) ;;
  parsedCallee <-
    (if isNew : bool then
       callee <- get node "callee" ;;
       stopped <- parseCallee_loop fuel callee [] ;;
       let '(callee', pushed) := stopped in
       root <- isIdentifier callee' ;;
       if root : bool then
         name <- get callee' "name" ;;
         ret (pushed ++ [name])
       else ret pushed
     else ret []) ;;
  ret (rev parsedCallee).

(** [Array.prototype.filter] keeps the nodes whose [type] is [nodeName];
    a missing [body] gives the empty array. *)
Definition findNodes (body nodeName : value) : M (list value) :=
  if truthy body then
    nodes <- as_array body ;;
    array_filter
      (fun node => ty <- get node "type" ;; ret (VBool (strict_eq ty nodeName)))
      nodes
  else ret [].

(** The integers that a double represents exactly. *)
Definition safe_integer (n : Z) : bool :=
  (Z.abs n <=? 9007199254740991)%Z.

(** Binary arithmetic, modelled on numbers where it is exact. *)
Definition arith (op : Z → Z → Z) (a b : value) : M value :=
  match a, b with
  | VNum x, VNum y =>
      if safe_integer x && safe_integer y && safe_integer (op x y)
      then ret (VNum (op x y))
      else fail Unsupported
  | _, _ => fail Unsupported
  end.

(** [node.loc.end.line - node.loc.start.line + 1]. *)
Definition getSize (node : value) : M value :=
  loc1 <- get node "loc" ;;
  end_ <- get loc1 "end" ;;
  endLine <- get end_ "line" ;;
  loc2 <- get node "loc" ;;
  start <- get loc2 "start" ;;
  startLine <- get start "line" ;;
  diff <- arith Z.sub endLine startLine ;;
  arith Z.add diff (VNum 1).

(** The callback of [filter] is [isLiteral(argument) && argument.value]. *)
Definition parseArgs (node : value) : M (list value) :=
  isCall <- isCallExpression node ;;
  if isCall : bool then
    arguments <- get node "arguments" ;;
    args <- as_array arguments ;;
    literals <-
      array_filter
        (fun argument =>
           lit <- isLiteral argument ;;
           if lit : bool then get argument "value" else ret (VBool false))
        args ;;
    array_map (fun argument => get argument "value") literals
  else ret [].

(** Relational comparison: numbers compare as integers, a comparison with
    [undefined] (a [NaN]) is false, other operands are not modelled. *)
Definition compare (op : Z → Z → bool) (a b : value) : M bool :=
  match a, b with
  | VNum x, VNum y => ret (op x y)
  | VUndefined, _ | _, VUndefined => ret false
  | _, _ => fail Unsupported
  end.

(** The body of the [for] loop of [findUnorderedProperty], run [steps]
    times from index [i]; nothing in the body changes [arr.length], so
    the number of iterations is fixed when the loop starts. *)
Fixpoint findUnorderedProperty_loop (steps i : nat) (arr : value) : M value :=
  match steps with
  | O => ret VNull
  | S steps' =>
      current <- get_index arr i ;;
      order <- get current "order" ;;
      next <- get_index arr (i + 1) ;;
      order' <- get next "order" ;;
      wrong <- compare Z.gtb order order' ;;
      if wrong : bool then get_index arr i
      else findUnorderedProperty_loop steps' (S i) arr
  end.

(** The bound [arr.length - 1]; with a length that is [undefined] the
    loop condition compares with [NaN] and the loop does not run. *)
Definition findUnorderedProperty (arr : value) : M value :=
  len <- get arr "length" ;;
  match len with
  | VNum n => findUnorderedProperty_loop (Z.to_nat (n - 1)) 0 arr
  | VUndefined => ret VNull
  | _ => fail Unsupported
  end.

(** [String.prototype.split] on a one-character separator. *)
Fixpoint split_on (sep : ascii) (s : string) : list string :=
  match s with
  | EmptyString => [EmptyString]
  | String c s' =>
      if Ascii.eqb c sep then EmptyString :: split_on sep s'
      else match split_on sep s' with
           | [] => [String c EmptyString]
           | piece :: pieces => String c piece :: pieces
           end
  end.

Definition string_of_Z (n : Z) : string :=
  if (n <? 0)%Z then ("-" ++ key_of_nat (Z.to_nat (- n)))%string
  else key_of_nat (Z.to_nat n).

(** ToString on primitives; a number is rendered in plain decimal
    notation below [10^21] only. *)
Definition prim_to_string (v : value) : option string :=
  match v with
  | VUndefined => Some "undefined"
  | VNull => Some "null"
  | VBool true => Some "true"
  | VBool false => Some "false"
  | VNum n =>
      if (Z.abs n <? 10 ^ 21)%Z then Some (string_of_Z n) else None
  | VStr s => Some s
  | VRef _ => None
  end.

(** How [Array.prototype.join] renders one element. *)
Definition elem_to_string (v : value) : option string :=
  match v with
  | VUndefined | VNull => Some EmptyString
  | _ => prim_to_string v
  end.

(** ToString, which is also how a value becomes a property key: a plain
    object renders as [[object Object]], an array as its elements joined
    by commas (arrays nested in arrays are not modelled). *)
Definition read_string (h : store) (v : value) : outcome string :=
  match v with
  | VRef l =>
      match h !! l with
      | Some (CObj _) => Ret "[object Object]"
      | Some (CArr es) =>
          match mapM elem_to_string es with
          | Some pieces => Ret (String.concat "," pieces)
          | None => Err Unsupported
          end
      | None => Err Unsupported
      end
  | _ => match prim_to_string v with
         | Some s => Ret s
         | None => Err Unsupported
         end
  end.

Definition to_string (v : value) : M string :=
  reading (fun h => read_string h v).

(** A new array is placed at a location the store does not use yet. *)
Definition alloc (c : cell) : M value :=
  fun h => let l := fresh (dom h) in Ret (VRef l, <[l := c]> h).

(** [Array.prototype.shift]: removes the first element in place. *)
Definition shift (arr : value) : M value :=
  fun h =>
    match arr with
    | VRef l =>
        match h !! l with
        | Some (CArr es) => Ret (hd VUndefined es, <[l := CArr (tl es)]> h)
        | _ => Err TypeError
        end
    | _ => Err TypeError
    end.

(** [parts] is a new array when [path] is a string and [path] itself
    otherwise; [parts.shift()] then writes to whichever array that is.
    [node[path]] and [node[parts[0]]] turn the key into a string. *)
Fixpoint getPropertyValue (fuel : nat) (node path : value) : M value :=
  match fuel with
  | O => fail OutOfFuel
  | S fuel' =>
      parts <-
        (match path with
         | VStr s => alloc (CArr (map VStr (split_on "." s)))
         | _ => ret path
         end) ;;
      len <- get parts "length" ;;
      if strict_eq len (VNum 1) then
        key <- to_string path ;;
        get node key
      else
        first <- get_index parts 0 ;;
        key <- to_string first ;;
        property <- get node key ;;
        deeper <-
          (if truthy property then
             len' <- get parts "length" ;;
             compare Z.gtb len' (VNum 1)
           else ret false) ;;
        if deeper : bool then
          shift parts ;;;
          getPropertyValue fuel' property parts
        else ret property
  end.

(** [Object.keys]: the own keys, as an array of strings. *)
Definition read_keys (h : store) (v : value) : outcome (list value) :=
  match v with
  | VUndefined | VNull => Err TypeError
  | VBool _ | VNum _ => Ret []
  | VStr s => Ret (map (fun i => VStr (key_of_nat i)) (seq 0 (String.length s)))
  | VRef l =>
      match h !! l with
      | Some (CObj fs) => Ret (map (fun kv => VStr (fst kv)) fs)
      | Some (CArr es) => Ret (map (fun i => VStr (key_of_nat i)) (seq 0 (length es)))
      | None => Ret []
      end
  end.

Definition object_keys (v : value) : M (list value) :=
  reading (fun h => read_keys h v).

(** [Array.prototype.indexOf]; [None] stands for [-1]. *)
Fixpoint index_of (x : value) (es : list value) : option nat :=
  match es with
  | [] => None
  | e :: es' =>
      if strict_eq e x then Some 0
      else match index_of x es' with
           | Some i => Some (S i)
           | None => None
           end
  end.

(** [Array.prototype.includes]; strings have a method of the same name,
    which is not modelled. *)
Definition read_includes (h : store) (recv x : value) : outcome bool :=
  match recv with
  | VStr _ => Err Unsupported
  | VRef l =>
      match h !! l with
      | Some (CArr es) => Ret (existsb (fun e => strict_eq e x) es)
      | _ => Err TypeError
      end
  | _ => Err TypeError
  end.

Definition includes (recv x : value) : M bool :=
  reading (fun h => read_includes h recv x).

(** [identifiers.indexOf(objBindingName) === -1] is [index_of ... = None];
    the two callbacks are those of [filter] and [map]. *)
Definition collectObjectPatternBindings (node initialObjToBinding : value)
    : M (list value) :=
  id <- get node "id" ;;
  pattern <- isObjectPattern id ;;
  if negb pattern then ret []
  else
    identifiers <- object_keys initialObjToBinding ;;
    init <- get node "init" ;;
    objBindingName <- get init "name" ;;
    match index_of objBindingName identifiers with
    | None => ret []
    | Some bindingIndex =>
        let binding := elem_at identifiers bindingIndex in
        id' <- get node "id" ;;
        properties <- get id' "properties" ;;
        props <- as_array properties ;;
        bound <-
          array_filter
            (fun props =>
               key <- to_string binding ;;
               names <- get initialObjToBinding key ;;
               propKey <- get props "key" ;;
               name <- get propKey "name" ;;
               present <- includes names name ;;
               ret (VBool present))
            props ;;
        array_map
          (fun props => local <- get props "value" ;; get local "name")
          bound
    end.

(** [a && b && c]: the first falsy operand is the result, and the later
    operands are not evaluated. *)
Definition isEmptyMethod (node : value) : M value :=
  value1 <- get node "value" ;;
  body1 <- get value1 "body" ;;
  if negb (truthy body1) then ret body1
  else
    value2 <- get node "value" ;;
    body2 <- get value2 "body" ;;
    statements <- get body2 "body" ;;
    if negb (truthy statements) then ret statements
    else
      value3 <- get node "value" ;;
      body3 <- get value3 "body" ;;
      statements' <- get body3 "body" ;;
      len <- get statements' "length" ;;
      empty <- compare Z.leb len (VNum 0) ;;
      ret (VBool empty).

(** [currentNode] of the source is the argument [node] of each round. *)
Fixpoint getAncestor (fuel : nat) (node : value) (predicate : value → M value)
    : M value :=
  match fuel with
  | O => fail OutOfFuel
  | S fuel' =>
      if truthy node then
        found <- predicate node ;;
        if truthy found then ret node
        else
          parent <- get node "parent" ;;
          getAncestor fuel' parent predicate
      else ret VNull
  end.

(** The template literal renders both names with ToString. *)
Fixpoint getName (fuel : nat) (node : value) : M value :=
  match fuel with
  | O => fail OutOfFuel
  | S fuel' =>
      ident <- isIdentifier node ;;
      if ident : bool then get node "name"
      else
        call <- isCallExpression node ;;
        call' <- (if call : bool then ret true else isOptionalCallExpression node) ;;
        if call' : bool then
          callee <- get node "callee" ;;
          getName fuel' callee
        else
          member <- isMemberExpression node ;;
          member' <-
            (if member : bool then ret true else isOptionalMemberExpression node) ;;
          if member' : bool then
            object <- get node "object" ;;
            objectName <- getName fuel' object ;;
            left <- to_string objectName ;;
            property <- get node "property" ;;
            propertyName <- getName fuel' property ;;
            right <- to_string propertyName ;;
            ret (VStr (left ++ "." ++ right)%string)
          else ret VUndefined
  end.

(** The arrow function handed to [getAncestor]. *)
Definition onLeftOfAssignment (ancestor : value) : M value :=
  parent <- get ancestor "parent" ;;
  if negb (truthy parent) then ret parent
  else
    parent' <- get ancestor "parent" ;;
    assignment <- isAssignmentExpression parent' ;;
    if negb assignment then ret (VBool false)
    else
      parent'' <- get ancestor "parent" ;;
      left <- get parent'' "left" ;;
      ret (VBool (strict_eq ancestor left)).

(** [Boolean(getAncestor(node, ...))]. *)
Definition isInLeftSideOfAssignmentExpression (fuel : nat) (node : value)
    : M bool :=
  found <- getAncestor fuel node onLeftOfAssignment ;;
  ret (truthy found).

(** ** Specification-side vocabulary *)

(** A read that cannot throw, as a total function. *)
Definition prop_of (h : store) (v : value) (k : string) : value :=
  match read_prop h v k with
  | Ret x => x
  | Err _ => VUndefined
  end.

(** A call or constructor call, the two kinds [parseCallee] accepts. *)
Definition is_call (h : store) (v : value) : bool :=
  has_type h v "CallExpression" || has_type h v "NewExpression".

(** ** Callee chains *)

(** The shape of a callee that ends in an identifier: [Root n] is the
    identifier [n]; [Dot o n] is a member access on [o] whose property
    node is the identifier [n]; [Index o] is a member access on [o] whose
    property node is anything else. *)
Inductive chain : Type :=
  | Root (name : string)
  | Dot (object : chain) (name : string)
  | Index (object : chain).

Fixpoint chain_names (c : chain) : list string :=
  match c with
  | Root n => [n]
  | Dot o n => chain_names o ++ [n]
  | Index o => chain_names o
  end.

Fixpoint chain_depth (c : chain) : nat :=
  match c with
  | Root _ => 0
  | Dot o _ | Index o => S (chain_depth o)
  end.

(** [is_chain h v c]: in store [h], the node [v] has shape [c]. *)
Fixpoint is_chain (h : store) (v : value) (c : chain) : bool :=
  match c with
  | Root n =>
      has_type h v "Identifier" && strict_eq (prop_of h v "name") (VStr n)
  | Dot o n =>
      has_type h v "MemberExpression"
      && has_type h (prop_of h v "property") "Identifier"
      && strict_eq (prop_of h (prop_of h v "property") "name") (VStr n)
      && is_chain h (prop_of h v "object") o
  | Index o =>
      has_type h v "MemberExpression"
      && negb (has_type h (prop_of h v "property") "Identifier")
      && is_chain h (prop_of h v "object") o
  end.

Fixpoint chain_root (c : chain) : string :=
  match c with
  | Root n => n
  | Dot o _ | Index o => chain_root o
  end.

Fixpoint chain_props (c : chain) : list string :=
  match c with
  | Root _ => []
  | Dot o n => chain_props o ++ [n]
  | Index o => chain_props o
  end.

(** ** Member accesses and their [computed] flag *)

(** One member access of a callee: the [computed] flag of the
    MemberExpression ([a[b]] against [a.b]) and, when its property node is
    an Identifier, the name of that identifier. *)
Record access : Type :=
  Access { computed : bool; property_name : option string }.

(** [is_access h v a]: in store [h], the node [v] is a member access with
    the flag and the property node that [a] describes. *)
Definition is_access (h : store) (v : value) (a : access) : bool :=
  has_type h v "MemberExpression"
  && strict_eq (prop_of h v "computed") (VBool (computed a))
  && match property_name a with
     | Some n =>
         has_type h (prop_of h v "property") "Identifier"
         && strict_eq (prop_of h (prop_of h v "property") "name") (VStr n)
     | None => negb (has_type h (prop_of h v "property") "Identifier")
     end.

(** [is_callee h v accesses root]: the node [v] is the identifier [root]
    below the member accesses [accesses], listed from the leaf (the
    outermost access) towards the root. *)
Fixpoint is_callee (h : store) (v : value) (accesses : list access)
    (root : string) : bool :=
  match accesses with
  | [] =>
      has_type h v "Identifier" && strict_eq (prop_of h v "name") (VStr root)
  | a :: rest =>
      is_access h v a && is_callee h (prop_of h v "object") rest root
  end.

(** The property names of the accesses whose property node is an
    Identifier, from the root to the leaf. *)
Definition identifier_names (accesses : list access) : list string :=
  rev (omap property_name accesses).

(** The same, leaving out the accesses flagged [computed]. *)
Definition plain_identifier_names (accesses : list access) : list string :=
  rev (omap (fun a => if computed a then None else property_name a)
         accesses).

(** The shape of a callee, forgetting the flags. *)
Fixpoint chain_of (accesses : list access) (root : string) : chain :=
  match accesses with
  | [] => Root root
  | a :: rest =>
      match property_name a with
      | Some n => Dot (chain_of rest root) n
      | None => Index (chain_of rest root)
      end
  end.

(** ** Example programs *)

(** [Ember.computed.alias('x')]: the call is node 1. *)
Definition store_alias : store :=
  list_to_map
    [ (1, CObj [("type", VStr "CallExpression"); ("callee", VRef 2);
                ("arguments", VRef 7)]);
      (2, CObj [("type", VStr "MemberExpression"); ("object", VRef 3);
                ("property", VRef 6); ("computed", VBool false)]);
      (3, CObj [("type", VStr "MemberExpression"); ("object", VRef 4);
                ("property", VRef 5); ("computed", VBool false)]);
      (4, CObj [("type", VStr "Identifier"); ("name", VStr "Ember")]);
      (5, CObj [("type", VStr "Identifier"); ("name", VStr "computed")]);
      (6, CObj [("type", VStr "Identifier"); ("name", VStr "alias")]);
      (7, CArr [VRef 8]);
      (8, CObj [("type", VStr "Literal"); ("value", VStr "x")]) ].

(** [a[dynamic]()]: the call is node 1, its callee the computed member
    access 2 whose property node is the identifier [dynamic]. *)
Definition store_dynamic : store :=
  list_to_map
    [ (1, CObj [("type", VStr "CallExpression"); ("callee", VRef 2);
                ("arguments", VRef 5)]);
      (2, CObj [("type", VStr "MemberExpression"); ("object", VRef 3);
                ("property", VRef 4); ("computed", VBool true)]);
      (3, CObj [("type", VStr "Identifier"); ("name", VStr "a")]);
      (4, CObj [("type", VStr "Identifier"); ("name", VStr "dynamic")]);
      (5, CArr []) ].

(** [a['x']()]: as above, with the string literal ['x'] between the
    brackets. *)
Definition store_quoted : store :=
  list_to_map
    [ (1, CObj [("type", VStr "CallExpression"); ("callee", VRef 2);
                ("arguments", VRef 5)]);
      (2, CObj [("type", VStr "MemberExpression"); ("object", VRef 3);
                ("property", VRef 4); ("computed", VBool true)]);
      (3, CObj [("type", VStr "Identifier"); ("name", VStr "a")]);
      (4, CObj [("type", VStr "Literal"); ("value", VStr "x")]);
      (5, CArr []) ].

(** [f('x', 0, 'y', null)]: the call is node 1. *)
Definition store_args : store :=
  list_to_map
    [ (1, CObj [("type", VStr "CallExpression"); ("callee", VRef 2);
                ("arguments", VRef 3)]);
      (2, CObj [("type", VStr "Identifier"); ("name", VStr "f")]);
      (3, CArr [VRef 4; VRef 5; VRef 6; VRef 7]);
      (4, CObj [("type", VStr "Literal"); ("value", VStr "x")]);
      (5, CObj [("type", VStr "Literal"); ("value", VNum 0)]);
      (6, CObj [("type", VStr "Literal"); ("value", VStr "y")]);
      (7, CObj [("type", VStr "Literal"); ("value", VNull)]) ].

(** ** Named expressions *)

(** The tree below a node, as far as [getName] looks at it. [Unnamed]
    stands for a node of any other kind (a [ThisExpression], a literal,
    a missing child, ...). *)
Inductive expr : Type :=
  | Ident (name : string)
  | Call (optional : bool) (callee : expr)
  | Member (optional : bool) (object property : expr)
  | Unnamed.

Fixpoint expr_depth (e : expr) : nat :=
  match e with
  | Ident _ | Unnamed => 0
  | Call _ c => S (expr_depth c)
  | Member _ o p => S (Nat.max (expr_depth o) (expr_depth p))
  end.

Definition has_name_variant (h : store) (v : value) : bool :=
  has_type h v "Identifier"
  || has_type h v "CallExpression" || has_type h v "OptionalCallExpression"
  || has_type h v "MemberExpression" || has_type h v "OptionalMemberExpression".

(** [represents h v e]: in store [h], the tree below node [v] is [e]. *)
Fixpoint represents (h : store) (v : value) (e : expr) : bool :=
  match e with
  | Ident n =>
      has_type h v "Identifier" && strict_eq (prop_of h v "name") (VStr n)
  | Call optional c =>
      has_type h v
        (if optional then "OptionalCallExpression" else "CallExpression")
      && represents h (prop_of h v "callee") c
  | Member optional o p =>
      has_type h v
        (if optional then "OptionalMemberExpression" else "MemberExpression")
      && represents h (prop_of h v "object") o
      && represents h (prop_of h v "property") p
  | Unnamed => negb (has_name_variant h v)
  end.

(** How a name, or its absence, is rendered inside a template literal. *)
Definition name_text (name : option string) : string :=
  match name with
  | Some s => s
  | None => "undefined"
  end.

(** The textual name of an expression; [None] is [undefined]. *)
Fixpoint expr_name (e : expr) : option string :=
  match e with
  | Ident n => Some n
  | Call _ c => expr_name c
  | Member _ o p =>
      Some (name_text (expr_name o) ++ "." ++ name_text (expr_name p))%string
  | Unnamed => None
  end.

Definition name_value (name : option string) : value :=
  match name with
  | Some s => VStr s
  | None => VUndefined
  end.

(** [this.x.y()]: the call is node 1, [this] is node 4. *)
Definition store_this_call : store :=
  list_to_map
    [ (1, CObj [("type", VStr "CallExpression"); ("callee", VRef 2);
                ("arguments", VRef 7)]);
      (2, CObj [("type", VStr "MemberExpression"); ("object", VRef 3);
                ("property", VRef 6); ("computed", VBool false)]);
      (3, CObj [("type", VStr "MemberExpression"); ("object", VRef 4);
                ("property", VRef 5); ("computed", VBool false)]);
      (4, CObj [("type", VStr "ThisExpression")]);
      (5, CObj [("type", VStr "Identifier"); ("name", VStr "x")]);
      (6, CObj [("type", VStr "Identifier"); ("name", VStr "y")]);
      (7, CArr []) ].

(** [x.y()]: the call is node 1. *)
Definition store_xy_call : store :=
  list_to_map
    [ (1, CObj [("type", VStr "CallExpression"); ("callee", VRef 2);
                ("arguments", VRef 5)]);
      (2, CObj [("type", VStr "MemberExpression"); ("object", VRef 3);
                ("property", VRef 4); ("computed", VBool false)]);
      (3, CObj [("type", VStr "Identifier"); ("name", VStr "x")]);
      (4, CObj [("type", VStr "Identifier"); ("name", VStr "y")]);
      (5, CArr []) ].

(** ** Ancestors *)

(** The node reached from [n] by following [parent] [k] times. *)
Fixpoint nth_parent (h : store) (n : value) (k : nat) : value :=
  match k with
  | O => n
  | S k' => nth_parent h (prop_of h n "parent") k'
  end.

(** [a.parent] is an AssignmentExpression and [a === a.parent.left]. *)
Definition on_left (h : store) (a : value) : bool :=
  truthy (prop_of h a "parent")
  && has_type h (prop_of h a "parent") "AssignmentExpression"
  && strict_eq a (prop_of h (prop_of h a "parent") "left").

(** The program [this.x.y = 1;] with its parent links: the assignment is
    node 3, [this] node 6, [x] node 7, [y] node 8 and [1] node 9. *)
Definition store_assign : store :=
  list_to_map
    [ (1, CObj [("type", VStr "Program"); ("body", VRef 10);
                ("parent", VNull)]);
      (2, CObj [("type", VStr "ExpressionStatement"); ("expression", VRef 3);
                ("parent", VRef 1)]);
      (3, CObj [("type", VStr "AssignmentExpression"); ("operator", VStr "=");
                ("left", VRef 4); ("right", VRef 9); ("parent", VRef 2)]);
      (4, CObj [("type", VStr "MemberExpression"); ("object", VRef 5);
                ("property", VRef 8); ("computed", VBool false);
                ("parent", VRef 3)]);
      (5, CObj [("type", VStr "MemberExpression"); ("object", VRef 6);
                ("property", VRef 7); ("computed", VBool false);
                ("parent", VRef 4)]);
      (6, CObj [("type", VStr "ThisExpression"); ("parent", VRef 5)]);
      (7, CObj [("type", VStr "Identifier"); ("name", VStr "x");
                ("parent", VRef 5)]);
      (8, CObj [("type", VStr "Identifier"); ("name", VStr "y");
                ("parent", VRef 4)]);
      (9, CObj [("type", VStr "Literal"); ("value", VNum 1);
                ("parent", VRef 3)]);
      (10, CArr [VRef 2]) ].

(** ** Destructuring patterns *)

(** A property of an object pattern with a key node and a value node. *)
Definition is_property (h : store) (p : value) : bool :=
  truthy p && truthy (prop_of h p "key") && truthy (prop_of h p "value").

(** The source name of a destructured property, [props.key.name]. *)
Definition key_name (h : store) (p : value) : value :=
  prop_of h (prop_of h p "key") "name".

(** The local name it is bound to, [props.value.name]. *)
Definition local_name (h : store) (p : value) : value :=
  prop_of h (prop_of h p "value") "name".

(** [names.includes(x)] on the elements of an array. *)
Definition among (names : list value) (x : value) : bool :=
  existsb (fun e => strict_eq e x) names.

(** [const { $: foo } = Ember] is declarator 1, [const x = Ember] is
    declarator 10, [const { $: bar } = DS] is declarator 12, and node 8 is
    the binding map [{ Ember: ['$'] }]. *)
Definition store_destructure : store :=
  list_to_map
    [ (1, CObj [("type", VStr "VariableDeclarator"); ("id", VRef 2);
                ("init", VRef 5)]);
      (2, CObj [("type", VStr "ObjectPattern"); ("properties", VRef 6)]);
      (3, CObj [("type", VStr "Identifier"); ("name", VStr "$")]);
      (4, CObj [("type", VStr "Identifier"); ("name", VStr "foo")]);
      (5, CObj [("type", VStr "Identifier"); ("name", VStr "Ember")]);
      (6, CArr [VRef 7]);
      (7, CObj [("type", VStr "Property"); ("key", VRef 3); ("value", VRef 4);
                ("computed", VBool false); ("shorthand", VBool false)]);
      (8, CObj [("Ember", VRef 9)]);
      (9, CArr [VStr "$"]);
      (10, CObj [("type", VStr "VariableDeclarator"); ("id", VRef 11);
                 ("init", VRef 5)]);
      (11, CObj [("type", VStr "Identifier"); ("name", VStr "x")]);
      (12, CObj [("type", VStr "VariableDeclarator"); ("id", VRef 13);
                 ("init", VRef 14)]);
      (13, CObj [("type", VStr "ObjectPattern"); ("properties", VRef 15)]);
      (14, CObj [("type", VStr "Identifier"); ("name", VStr "DS")]);
      (15, CArr [VRef 16]);
      (16, CObj [("type", VStr "Property"); ("key", VRef 18); ("value", VRef 17);
                 ("computed", VBool false); ("shorthand", VBool false)]);
      (17, CObj [("type", VStr "Identifier"); ("name", VStr "bar")]);
      (18, CObj [("type", VStr "Identifier"); ("name", VStr "$")]) ].

(** ** Ordered properties *)

(** A record with a numeric [order] field. *)
Definition has_order (h : store) (e : value) : bool :=
  truthy e
  && match prop_of h e "order" with
     | VNum _ => true
     | _ => false
     end.

Definition order_of (h : store) (e : value) : Z :=
  match prop_of h e "order" with
  | VNum n => n
  | _ => 0%Z
  end.

(** The arrays [[{order: 1}, {order: 3}, {order: 2}]] (node 1) and
    [[{order: 1}, {order: 2}, {order: 2}]] (node 2). *)
Definition store_orders : store :=
  list_to_map
    [ (1, CArr [VRef 3; VRef 4; VRef 5]);
      (2, CArr [VRef 3; VRef 5; VRef 6]);
      (3, CObj [("order", VNum 1)]);
      (4, CObj [("order", VNum 3)]);
      (5, CObj [("order", VNum 2)]);
      (6, CObj [("order", VNum 2)]) ].

(** ** Property paths *)

(** Repeated property lookup along the segments [keys], as
    [getPropertyValue] performs it: a segment before the last whose value
    is falsy ends the walk with that value. The second component is the
    part of the path that was not consumed. The empty path reads the
    property named [undefined]. *)
Fixpoint walk (h : store) (v : value) (keys : list string)
    : outcome (value * list string) :=
  match keys with
  | [] =>
      match read_prop h v "undefined" with
      | Ret p => Ret (p, [])
      | Err e => Err e
      end
  | k :: keys' =>
      match read_prop h v k with
      | Ret p =>
          match keys' with
          | [] => Ret (p, keys)
          | _ :: _ => if truthy p then walk h p keys' else Ret (p, keys)
          end
      | Err e => Err e
      end
  end.

(** Repeated property lookup as the specification words it: the final
    value reached, or [undefined] as soon as a segment is absent or cannot
    be read (the optional chain [v?.k1?.k2...]). *)
Fixpoint resolve_path (h : store) (v : value) (keys : list string) : value :=
  match keys with
  | [] => v
  | k :: keys' =>
      match read_prop h v k with
      | Ret VUndefined | Err _ => VUndefined
      | Ret p => resolve_path h p keys'
      end
  end.

(** A reference is valid when the store has a cell for it. *)
Definition valid (h : store) (v : value) : bool :=
  match v with
  | VRef l => match h !! l with Some _ => true | None => false end
  | _ => true
  end.

Definition cell_values (c : cell) : list value :=
  match c with
  | CObj fs => map snd fs
  | CArr es => es
  end.

(** A store is closed when its cells hold valid references only. *)
Definition closed (h : store) : bool :=
  forallb (fun lc => forallb (valid h) (cell_values (snd lc))) (map_to_list h).

(** The literal [''] (node 1) and the property [foo: 1] (node 2) with its
    key (node 3) and value (node 4); node 5 is the pre-split path
    [['key', 'name']]. *)
Definition store_path : store :=
  list_to_map
    [ (1, CObj [("type", VStr "Literal"); ("value", VStr "");
                ("raw", VStr "''")]);
      (2, CObj [("type", VStr "Property"); ("key", VRef 3);
                ("value", VRef 4); ("kind", VStr "init")]);
      (3, CObj [("type", VStr "Identifier"); ("name", VStr "foo")]);
      (4, CObj [("type", VStr "Literal"); ("value", VNum 1);
                ("raw", VStr "1")]);
      (5, CArr [VStr "key"; VStr "name"]) ].

(** ** Purity *)

(** A computation that leaves the store exactly as it found it. *)
Definition read_only {A} (m : M A) : Prop :=
  ∀ h a h', m h = Ret (a, h') → h' = h.

(** A pure read: the store is not changed, so that running the
    computation again gives the same result again. *)
Definition pure_read {A} (m : M A) : Prop :=
  ∀ h a h', m h = Ret (a, h') → h' = h ∧ m h' = Ret (a, h').

(** A computation that writes, if at all, to the cell at [l] only. *)
Definition only_writes {A} (l : loc) (m : M A) : Prop :=
  ∀ h a h', m h = Ret (a, h') → ∀ l', l' ≠ l → h' !! l' = h !! l'.

(** ** Partial trees *)

(** [for (const { a } of list) {}]: the declarator (node 3) has an
    ObjectPattern as its [id] and no initialiser ([init: null]); node 12
    is the binding map [{ Ember: ['$'] }]. *)
Definition store_for_of : store :=
  list_to_map
    [ (1, CObj [("type", VStr "ForOfStatement"); ("left", VRef 2);
                ("right", VRef 7); ("body", VRef 8)]);
      (2, CObj [("type", VStr "VariableDeclaration");
                ("declarations", VRef 9); ("kind", VStr "const")]);
      (3, CObj [("type", VStr "VariableDeclarator"); ("id", VRef 4);
                ("init", VNull)]);
      (4, CObj [("type", VStr "ObjectPattern"); ("properties", VRef 10)]);
      (5, CObj [("type", VStr "Property"); ("key", VRef 6); ("value", VRef 6);
                ("computed", VBool false); ("shorthand", VBool true)]);
      (6, CObj [("type", VStr "Identifier"); ("name", VStr "a")]);
      (7, CObj [("type", VStr "Identifier"); ("name", VStr "list")]);
      (8, CObj [("type", VStr "BlockStatement"); ("body", VRef 11)]);
      (9, CArr [VRef 3]);
      (10, CArr [VRef 5]);
      (11, CArr []);
      (12, CObj [("Ember", VRef 13)]);
      (13, CArr [VStr "$"]) ].


(** A method whose function has no body (node 1), as in a declaration
    without implementation, and the method [foo() {}] (node 3). *)
Definition store_methods : store :=
  list_to_map
    [ (1, CObj [("type", VStr "MethodDefinition"); ("key", VRef 5);
                ("value", VRef 2)]);
      (2, CObj [("type", VStr "TSEmptyBodyFunctionExpression");
                ("params", VRef 7)]);
      (3, CObj [("type", VStr "MethodDefinition"); ("key", VRef 5);
                ("value", VRef 4)]);
      (4, CObj [("type", VStr "FunctionExpression"); ("params", VRef 7);
                ("body", VRef 6)]);
      (5, CObj [("type", VStr "Identifier"); ("name", VStr "foo")]);
      (6, CObj [("type", VStr "BlockStatement"); ("body", VRef 7)]);
      (7, CArr []) ].

(** A node that spans the lines 10 to 12 (node 1). *)
Definition store_lines : store :=
  list_to_map
    [ (1, CObj [("type", VStr "FunctionExpression"); ("loc", VRef 2)]);
      (2, CObj [("start", VRef 3); ("end", VRef 4)]);
      (3, CObj [("line", VNum 10); ("column", VNum 2)]);
      (4, CObj [("line", VNum 12); ("column", VNum 3)]) ].

(** ** Further vocabulary *)

(** [undefined] and [null], the values whose properties cannot be read. *)
Definition nullish (v : value) : bool :=
  match v with
  | VUndefined | VNull => true
  | _ => false
  end.

(** The value a computation returns, without the store it leaves. *)
Definition value_of {A} (o : outcome (A * store)) : outcome A :=
  match o with
  | Ret (a, _) => Ret a
  | Err e => Err e
  end.

(** A predicate for [getAncestor] that only reads the store and whose
    answer, on a node that is present, is truthy exactly when [q] holds. *)
Definition decides (predicate : value → M value) (q : value → bool)
    (h : store) : Prop :=
  ∀ v, truthy v = true → ∃ r, predicate v h = Ret (r, h) ∧ truthy r = q v.

(** The predicate [(node) => node.type === tag], as a caller would pass it
    to [getAncestor]. *)
Definition ofType (tag : string) (node : value) : M value :=
  ty <- get node "type" ;;
  ret (VBool (strict_eq ty (VStr tag))).

(** The tag of a node, as [ofType] compares it. *)
Definition type_is (h : store) (tag : string) (v : value) : bool :=
  strict_eq (prop_of h v "type") (VStr tag).

(** The array expression [[a, , b]] (node 1): the hole in the middle is a
    [null] element of [elements] (node 2). *)
Definition store_sparse : store :=
  list_to_map
    [ (1, CObj [("type", VStr "ArrayExpression"); ("elements", VRef 2)]);
      (2, CArr [VRef 3; VNull; VRef 4]);
      (3, CObj [("type", VStr "Identifier"); ("name", VStr "a")]);
      (4, CObj [("type", VStr "Identifier"); ("name", VStr "b")]) ].

(** A callee that does not end in an identifier: the member accesses from
    the leaf towards the root, [Some n] when the property node is the
    identifier [n] and [None] when it is any other node, down to a node
    that is neither a member access nor an identifier (a [this], a call,
    a literal, ...). *)
Fixpoint is_open_chain (h : store) (v : value) (accesses : list (option string))
    : bool :=
  match accesses with
  | [] =>
      negb (has_type h v "MemberExpression")
      && negb (has_type h v "Identifier")
  | Some n :: rest =>
      has_type h v "MemberExpression"
      && has_type h (prop_of h v "property") "Identifier"
      && strict_eq (prop_of h (prop_of h v "property") "name") (VStr n)
      && is_open_chain h (prop_of h v "object") rest
  | None :: rest =>
      has_type h v "MemberExpression"
      && negb (has_type h (prop_of h v "property") "Identifier")
      && is_open_chain h (prop_of h v "object") rest
  end.

(** The call [f()] whose node lacks the [arguments] field (node 1). *)
Definition store_bare_call : store :=
  list_to_map
    [ (1, CObj [("type", VStr "CallExpression"); ("callee", VRef 2)]);
      (2, CObj [("type", VStr "Identifier"); ("name", VStr "f")]) ].

(** A pair of neighbours that the comparison [a.order > b.order] does not
    report: two numbers in order, or a missing order on either side. *)
Definition unreported (h : store) (a b : value) : bool :=
  match prop_of h a "order", prop_of h b "order" with
  | VNum x, VNum y => (x <=? y)%Z
  | VUndefined, _ | _, VUndefined => true
  | _, _ => false
  end.

Fixpoint all_unreported (h : store) (es : list value) : bool :=
  match es with
  | a :: (b :: _) as rest => unreported h a b && all_unreported h rest
  | _ => true
  end.

(** The array [[{order: 2}, {name: 'x'}, {order: 1}]] (node 1). *)
Definition store_unranked : store :=
  list_to_map
    [ (1, CArr [VRef 2; VRef 3; VRef 4]);
      (2, CObj [("order", VNum 2)]);
      (3, CObj [("name", VStr "x")]);
      (4, CObj [("order", VNum 1)]) ].

(** [const { $ } = this] (declarator 1) and [const { $, ...rest } = Ember]
    (declarator 7): the rest element (node 11) is in [properties] but has
    no [key]. Node 14 is the binding map [{ Ember: ['$'] }]. *)
Definition store_patterns : store :=
  list_to_map
    [ (1, CObj [("type", VStr "VariableDeclarator"); ("id", VRef 2);
                ("init", VRef 6)]);
      (2, CObj [("type", VStr "ObjectPattern"); ("properties", VRef 3)]);
      (3, CArr [VRef 4]);
      (4, CObj [("type", VStr "Property"); ("key", VRef 5); ("value", VRef 5);
                ("computed", VBool false); ("shorthand", VBool true)]);
      (5, CObj [("type", VStr "Identifier"); ("name", VStr "$")]);
      (6, CObj [("type", VStr "ThisExpression")]);
      (7, CObj [("type", VStr "VariableDeclarator"); ("id", VRef 8);
                ("init", VRef 13)]);
      (8, CObj [("type", VStr "ObjectPattern"); ("properties", VRef 9)]);
      (9, CArr [VRef 10; VRef 11]);
      (10, CObj [("type", VStr "Property"); ("key", VRef 5); ("value", VRef 5);
                 ("computed", VBool false); ("shorthand", VBool true)]);
      (11, CObj [("type", VStr "RestElement"); ("argument", VRef 12)]);
      (12, CObj [("type", VStr "Identifier"); ("name", VStr "rest")]);
      (13, CObj [("type", VStr "Identifier"); ("name", VStr "Ember")]);
      (14, CObj [("Ember", VRef 15)]);
      (15, CArr [VStr "$"]) ].

(** A pattern property that [props.key.name] cannot be read from. *)
Definition keyless (h : store) (p : value) : bool :=
  nullish p || nullish (prop_of h p "key").

(** A chain of plain member accesses: every property node is an
    identifier. *)
Fixpoint plain (c : chain) : bool :=
  match c with
  | Root _ => true
  | Dot o _ => plain o
  | Index _ => false
  end.

(** [new Ember.Object()] (node 1) and [Ember.Object()] (node 5), on the
    same callee. *)
Definition store_new : store :=
  list_to_map
    [ (1, CObj [("type", VStr "NewExpression"); ("callee", VRef 2);
                ("arguments", VRef 6)]);
      (2, CObj [("type", VStr "MemberExpression"); ("object", VRef 3);
                ("property", VRef 4); ("computed", VBool false)]);
      (3, CObj [("type", VStr "Identifier"); ("name", VStr "Ember")]);
      (4, CObj [("type", VStr "Identifier"); ("name", VStr "Object")]);
      (5, CObj [("type", VStr "CallExpression"); ("callee", VRef 2);
                ("arguments", VRef 7)]);
      (6, CArr []);
      (7, CArr [VRef 3]) ].

(** ** Reasoning about monadic code *)

Section Monad.
Context {A B : Type}.

Lemma bind_ret (a : A) (k : A → M B) h : bind (ret a) k h = k a h.
Proof. reflexivity. Qed.

Lemma bind_assoc {C} (m : M A) (f : A → M B) (g : B → M C) h :
  bind (bind m f) g h = bind m (fun x => bind (f x) g) h.
Proof. unfold bind. destruct (m h) as [[a h']|e]; reflexivity. Qed.

Lemma bind_fail e (k : A → M B) h : bind (fail e) k h = Err e.
Proof. reflexivity. Qed.

Lemma bind_reading (f : store → outcome A) (k : A → M B) h :
  bind (reading f) k h =
  match f h with Ret a => k a h | Err e => Err e end.
Proof. unfold bind, reading. destruct (f h); reflexivity. Qed.

(** Replacing the parts of a sequence by parts that return at least as
    often keeps a result. *)
Lemma bind_mono (m m' : M A) (k k' : A → M B) h r :
  (∀ x, m h = Ret x → m' h = Ret x) →
  (∀ a h1, k a h1 = Ret r → k' a h1 = Ret r) →
  bind m k h = Ret r → bind m' k' h = Ret r.
Proof.
  intros Hm Hk. unfold bind.
  destruct (m h) as [[a h1]|e] eqn:E; [|discriminate].
  rewrite (Hm _ eq_refl). apply Hk.
Qed.
End Monad.

(** The primitives that only inspect the store, under a bind. *)
Section Primitives.
Context {B : Type}.
Variable h : store.

Lemma bind_get v key (k : value → M B) :
  bind (get v key) k h =
  match read_prop h v key with Ret x => k x h | Err e => Err e end.
Proof. unfold get. rewrite bind_reading. reflexivity. Qed.

Lemma bind_is_type tag v (k : bool → M B) :
  bind (is_type tag v) k h = k (has_type h v tag) h.
Proof. unfold is_type. rewrite bind_reading. reflexivity. Qed.

Lemma bind_get_index v i (k : value → M B) :
  bind (get_index v i) k h =
  match read_index h v i with Ret x => k x h | Err e => Err e end.
Proof. unfold get_index. rewrite bind_reading. reflexivity. Qed.

Lemma bind_as_array v (k : list value → M B) :
  bind (as_array v) k h =
  match read_array h v with Ret es => k es h | Err e => Err e end.
Proof. unfold as_array. rewrite bind_reading. reflexivity. Qed.

Lemma bind_to_string v (k : string → M B) :
  bind (to_string v) k h =
  match read_string h v with Ret s => k s h | Err e => Err e end.
Proof. unfold to_string. rewrite bind_reading. reflexivity. Qed.

Lemma bind_object_keys v (k : list value → M B) :
  bind (object_keys v) k h =
  match read_keys h v with Ret ks => k ks h | Err e => Err e end.
Proof. unfold object_keys. rewrite bind_reading. reflexivity. Qed.

Lemma bind_includes recv x (k : bool → M B) :
  bind (includes recv x) k h =
  match read_includes h recv x with Ret b => k b h | Err e => Err e end.
Proof. unfold includes. rewrite bind_reading. reflexivity. Qed.

Lemma bind_alloc c (k : value → M B) :
  bind (alloc c) k h =
  k (VRef (fresh (dom h))) (<[fresh (dom h) := c]> h).
Proof. reflexivity. Qed.

Lemma bind_shift l es (k : value → M B) :
  h !! l = Some (CArr es) →
  bind (shift (VRef l)) k h = k (hd VUndefined es) (<[l := CArr (tl es)]> h).
Proof. intros Hl. unfold bind, shift. by rewrite Hl. Qed.
End Primitives.

Lemma get_run v key h :
  get v key h =
  match read_prop h v key with Ret x => Ret (x, h) | Err e => Err e end.
Proof. reflexivity. Qed.

(** ** Typed nodes and reads *)

Section Reads.
Variable h : store.

Lemma has_type_ref v tag :
  has_type h v tag = true →
  ∃ l fs, v = VRef l ∧ h !! l = Some (CObj fs) ∧ field fs "type" = VStr tag.
Proof.
  unfold has_type. destruct v as [| | | | |l]; try discriminate.
  destruct (h !! l) as [[fs|es]|] eqn:Hl; try discriminate.
  intros Ht. exists l, fs. repeat split; auto.
  unfold strict_eq in Ht. by apply bool_decide_eq_true in Ht.
Qed.

(** A node of a known type is an object: reading it cannot throw. *)
Lemma has_type_read v tag key :
  has_type h v tag = true → read_prop h v key = Ret (prop_of h v key).
Proof.
  intros (l & fs & -> & Hl & _)%has_type_ref.
  unfold prop_of. simpl. rewrite Hl. reflexivity.
Qed.

Lemma has_type_other v tag tag' :
  has_type h v tag = true → tag ≠ tag' → has_type h v tag' = false.
Proof.
  intros (l & fs & -> & Hl & Hf)%has_type_ref Hne.
  simpl. rewrite Hl, Hf. unfold strict_eq.
  apply bool_decide_eq_false. congruence.
Qed.

(** Neither is reading a truthy value. *)
Lemma truthy_read v key :
  truthy v = true → read_prop h v key = Ret (prop_of h v key).
Proof.
  intros Hv. unfold prop_of.
  destruct (read_prop h v key) as [x|e] eqn:E; [reflexivity|].
  destruct v as [| | | | |l]; try discriminate.
  simpl in E. destruct (h !! l) as [[fs|es]|]; discriminate.
Qed.

Lemma read_array_index arr es i :
  read_array h arr = Ret es → read_index h arr i = Ret (elem_at es i).
Proof.
  destruct arr as [| | | | |l]; try discriminate. simpl.
  destruct (h !! l) as [[fs|es']|]; try discriminate.
  by intros [= ->].
Qed.

Lemma read_array_length arr es :
  read_array h arr = Ret es →
  read_prop h arr "length" = Ret (VNum (Z.of_nat (length es))).
Proof.
  destruct arr as [| | | | |l]; try discriminate. simpl.
  destruct (h !! l) as [[fs|es']|]; try discriminate.
  by intros [= ->].
Qed.

Lemma read_array_includes v es x :
  read_array h v = Ret es → read_includes h v x = Ret (among es x).
Proof.
  destruct v as [| | | | |l]; try discriminate. simpl.
  destruct (h !! l) as [[fs|es']|]; try discriminate.
  by intros [= ->].
Qed.

Lemma read_keys_read v keys key :
  read_keys h v = Ret keys → read_prop h v key = Ret (prop_of h v key).
Proof.
  intros Hk. unfold prop_of.
  destruct (read_prop h v key) as [x|e] eqn:E; [reflexivity|].
  destruct v as [| | | | |l]; try discriminate.
  simpl in E. destruct (h !! l) as [[fs|es]|]; discriminate.
Qed.

End Reads.

(** Unfold the type predicates and push a store through the next binds. *)
Ltac unfold_types :=
  unfold isAssignmentExpression, isCallExpression, isIdentifier, isLiteral,
    isMemberExpression, isNewExpression, isObjectPattern,
    isOptionalCallExpression, isOptionalMemberExpression in *.

Ltac mstep :=
  repeat (cbv beta iota;
          first [ rewrite bind_assoc
                | rewrite bind_is_type
                | rewrite bind_fail
                | rewrite bind_get
                | rewrite bind_ret
                | rewrite get_run ]);
  cbv beta iota.

Lemma strict_eq_true a b : strict_eq a b = true → a = b.
Proof. unfold strict_eq. apply bool_decide_eq_true. Qed.

Lemma chain_names_split c : chain_names c = chain_root c :: chain_props c.
Proof. induction c as [n|o IH n|o IH]; simpl; rewrite ?IH; reflexivity. Qed.

(** The loop stops at the root identifier, having pushed the property
    names from the leaf towards the root. *)
Lemma parseCallee_loop_chain h c :
  ∀ v acc fuel,
    is_chain h v c = true → chain_depth c < fuel →
    ∃ root,
      parseCallee_loop fuel v acc h
        = Ret ((root, acc ++ map VStr (rev (chain_props c))), h)
      ∧ has_type h root "Identifier" = true
      ∧ prop_of h root "name" = VStr (chain_root c).
Proof.
  induction c as [n|o IH n|o IH]; intros v acc fuel Hc Hfuel;
    (destruct fuel as [|fuel]; [lia|]); simpl in Hc, Hfuel |- *.
  - apply andb_true_iff in Hc as [Hid Hname%strict_eq_true].
    exists v. unfold_types. mstep.
    rewrite (has_type_other _ _ _ "MemberExpression" Hid) by discriminate.
    rewrite app_nil_r. auto.
  - apply andb_true_iff in Hc as [Hc Hrest].
    apply andb_true_iff in Hc as [Hc Hname%strict_eq_true].
    apply andb_true_iff in Hc as [Hmem Hid].
    destruct (IH (prop_of h v "object") (acc ++ [VStr n]) fuel Hrest)
      as (root & Hrun & Hroot); [lia|].
    exists root. split; [|exact Hroot].
    unfold_types. mstep. rewrite Hmem. mstep.
    rewrite (has_type_read _ _ _ "property" Hmem). mstep. rewrite Hid. mstep.
    rewrite (has_type_read _ _ _ "name" Hid), Hname. mstep.
    rewrite (has_type_read _ _ _ "object" Hmem). mstep.
    rewrite Hrun.
    rewrite rev_app_distr, <- app_assoc. reflexivity.
  - apply andb_true_iff in Hc as [Hc Hrest].
    apply andb_true_iff in Hc as [Hmem Hid%negb_true_iff].
    destruct (IH (prop_of h v "object") acc fuel Hrest)
      as (root & Hrun & Hroot); [lia|].
    exists root. split; [|exact Hroot].
    unfold_types. mstep. rewrite Hmem. mstep.
    rewrite (has_type_read _ _ _ "property" Hmem). mstep. rewrite Hid. mstep.
    rewrite (has_type_read _ _ _ "object" Hmem). mstep.
    rewrite Hrun. reflexivity.
Qed.

(** ** parseCallee *)

(** What [parseCallee] does after the test on the node kind. *)
Lemma parseCallee_call h node fuel :
  is_call h node = true →
  parseCallee fuel node h =
  match parseCallee_loop fuel (prop_of h node "callee") [] h with
  | Ret ((stop, pushed), h') =>
      if has_type h' stop "Identifier"
      then match read_prop h' stop "name" with
           | Ret name => Ret (rev (pushed ++ [name]), h')
           | Err e => Err e
           end
      else Ret (rev pushed, h')
  | Err e => Err e
  end.
Proof.
  intros Hcall. unfold is_call in Hcall.
  assert (Hread : read_prop h node "callee" = Ret (prop_of h node "callee")).
  { apply orb_true_iff in Hcall as [H|H]; eapply has_type_read; eauto. }
  assert (Hnew : (if has_type h node "CallExpression" then ret true
                  else is_type "NewExpression" node) h = Ret (true, h)).
  { destruct (has_type h node "CallExpression") eqn:E; [reflexivity|].
    simpl in Hcall. unfold is_type, reading. rewrite Hcall. reflexivity. }
  unfold parseCallee. unfold_types. mstep.
  unfold bind at 1. rewrite Hnew. mstep. rewrite Hread. mstep.
  unfold bind at 1.
  destruct (parseCallee_loop fuel (prop_of h node "callee") [] h)
    as [[[stop pushed] h']|e]; [|reflexivity].
  mstep. destruct (has_type h' stop "Identifier"); mstep; [|reflexivity].
  destruct (read_prop h' stop "name"); mstep; reflexivity.
Qed.

(** C1. For a CallExpression or NewExpression whose callee is a chain of
    member accesses ending in an identifier, [parseCallee] returns the
    recorded names from the root to the leaf, leaving the store as it
    was; for a node that is neither kind of call it returns the empty
    array. *)
Theorem parseCallee_chain (h : store) (node : value) :
  (∀ c fuel,
     is_call h node = true →
     is_chain h (prop_of h node "callee") c = true →
     chain_depth c < fuel →
     parseCallee fuel node h = Ret (map VStr (chain_names c), h))
  ∧ (∀ fuel,
       is_call h node = false →
       parseCallee fuel node h = Ret ([], h)).
Proof.
  split.
  - intros c fuel Hcall Hc Hfuel.
    destruct (parseCallee_loop_chain h c _ [] fuel Hc Hfuel)
      as (root & Hrun & Hid & Hname).
    rewrite (parseCallee_call _ _ _ Hcall), Hrun, Hid.
    rewrite (has_type_read _ _ _ "name" Hid), Hname.
    rewrite chain_names_split. simpl.
    rewrite rev_app_distr, <- map_rev, rev_involutive. reflexivity.
  - intros fuel Hcall. unfold is_call in Hcall.
    apply orb_false_iff in Hcall as [Hc Hn].
    unfold parseCallee. unfold_types. mstep. rewrite Hc. mstep.
    rewrite Hn. mstep. reflexivity.
Qed.

Lemma parseCallee_chain_witness :
  parseCallee 3 (VRef 1) store_alias
    = Ret ([VStr "Ember"; VStr "computed"; VStr "alias"], store_alias)
  ∧ parseCallee 0 (VRef 4) store_alias = Ret ([], store_alias).
Proof.
  split.
  - apply (proj1 (parseCallee_chain store_alias (VRef 1))
             (Dot (Dot (Root "Ember") "computed") "alias") 3).
    + vm_compute. reflexivity.
    + vm_compute. reflexivity.
    + simpl. lia.
  - apply (proj2 (parseCallee_chain store_alias (VRef 4)) 0).
    vm_compute. reflexivity.
Defined.


(** ** Callees with flagged member accesses *)

Lemma is_callee_chain h accesses root :
  ∀ v, is_callee h v accesses root = true →
       is_chain h v (chain_of accesses root) = true.
Proof.
  induction accesses as [|[flag [n|]] rest IH]; intros v Hv;
    simpl in Hv |- *; [exact Hv| |].
  - apply andb_true_iff in Hv as [Ha Hrest]. unfold is_access in Ha.
    simpl in Ha.
    apply andb_true_iff in Ha as [[Hmem _]%andb_true_iff Hprop].
    apply andb_true_iff in Hprop as [Hid Hname].
    rewrite Hmem, Hid, Hname, (IH _ Hrest). reflexivity.
  - apply andb_true_iff in Hv as [Ha Hrest]. unfold is_access in Ha.
    simpl in Ha.
    apply andb_true_iff in Ha as [[Hmem _]%andb_true_iff Hprop].
    rewrite Hmem, Hprop, (IH _ Hrest). reflexivity.
Qed.

Lemma chain_of_names accesses root :
  chain_names (chain_of accesses root) = root :: identifier_names accesses.
Proof.
  unfold identifier_names.
  induction accesses as [|[flag [n|]] rest IH]; simpl; [reflexivity| |].
  - rewrite IH. reflexivity.
  - exact IH.
Qed.

Lemma chain_of_depth accesses root :
  chain_depth (chain_of accesses root) = length accesses.
Proof.
  induction accesses as [|[flag [n|]] rest IH]; simpl; congruence.
Qed.

(** C2, as amended. For a call whose callee is an identifier below any
    number of member accesses, each with its own [computed] flag,
    [parseCallee] returns the root followed by the property names of
    exactly those accesses whose property node is an Identifier, from the
    root to the leaf: the flags play no part, an access whose property
    node is of another type adds nothing, and the walk goes on into the
    object either way. *)
Theorem parseCallee_member_accesses (h : store) (node : value)
    (accesses : list access) (root : string) (fuel : nat) :
  is_call h node = true →
  is_callee h (prop_of h node "callee") accesses root = true →
  length accesses < fuel →
  parseCallee fuel node h
    = Ret (map VStr (root :: identifier_names accesses), h).
Proof.
  intros Hcall Hcallee Hfuel.
  apply is_callee_chain in Hcallee.
  rewrite <- (chain_of_depth accesses root) in Hfuel.
  destruct (parseCallee_loop_chain h _ _ [] fuel Hcallee Hfuel)
    as (stop & Hrun & Hid & Hname).
  rewrite (parseCallee_call _ _ _ Hcall), Hrun, Hid.
  rewrite (has_type_read _ _ _ "name" Hid), Hname.
  rewrite <- chain_of_names, chain_names_split. simpl.
  rewrite rev_app_distr, <- map_rev, rev_involutive. reflexivity.
Qed.

Lemma parseCallee_member_accesses_witness :
  parseCallee 2 (VRef 1) store_dynamic
    = Ret ([VStr "a"; VStr "dynamic"], store_dynamic)
  ∧ parseCallee 2 (VRef 1) store_quoted = Ret ([VStr "a"], store_quoted)
  ∧ parseCallee 3 (VRef 1) store_alias
      = Ret ([VStr "Ember"; VStr "computed"; VStr "alias"], store_alias).
Proof.
  repeat apply conj.
  - apply (parseCallee_member_accesses store_dynamic (VRef 1)
             [Access true (Some "dynamic")] "a" 2);
      [vm_compute; reflexivity | vm_compute; reflexivity | simpl; lia].
  - apply (parseCallee_member_accesses store_quoted (VRef 1)
             [Access true None] "a" 2);
      [vm_compute; reflexivity | vm_compute; reflexivity | simpl; lia].
  - apply (parseCallee_member_accesses store_alias (VRef 1)
             [Access false (Some "alias"); Access false (Some "computed")]
             "Ember" 3);
      [vm_compute; reflexivity | vm_compute; reflexivity | simpl; lia].
Defined.

(** C2, as stated, fails: were the property names of computed accesses
    skipped, the result would hold the root and the identifier names of
    the accesses that are not computed. In [a[dynamic]()] (node 1 of
    [store_dynamic]) the only access has [computed: true], so that would
    be [['a']]; the result is [['a', 'dynamic']]. *)
Lemma parseCallee_computed_recorded :
  prop_of store_dynamic (prop_of store_dynamic (VRef 1) "callee") "computed"
    = VBool true
  ∧ parseCallee 2 (VRef 1) store_dynamic
      = Ret ([VStr "a"; VStr "dynamic"], store_dynamic)
  ∧ ¬ (∀ (h : store) (node : value) (accesses : list access)
         (root : string) (fuel : nat),
         is_call h node = true →
         is_callee h (prop_of h node "callee") accesses root = true →
         length accesses < fuel →
         parseCallee fuel node h
           = Ret (map VStr (root :: plain_identifier_names accesses), h)).
Proof.
  assert (Hrun : parseCallee 2 (VRef 1) store_dynamic
                 = Ret ([VStr "a"; VStr "dynamic"], store_dynamic))
    by (vm_compute; reflexivity).
  split; [vm_compute; reflexivity|]. split; [exact Hrun|].
  intros Hclaim.
  specialize (Hclaim store_dynamic (VRef 1) [Access true (Some "dynamic")]
                "a" 2).
  rewrite Hrun in Hclaim.
  assert (Hbad : Ret ([VStr "a"; VStr "dynamic"], store_dynamic)
                 = Ret (map VStr ("a" :: plain_identifier_names
                                           [Access true (Some "dynamic")]),
                        store_dynamic))
    by (apply Hclaim; [vm_compute; reflexivity | vm_compute; reflexivity
                      | simpl; lia]).
  inversion Hbad.
Qed.

(** ** Array callbacks that only read *)

Lemma array_filter_reads (p : value → M value) (f : value → value) h es :
  (∀ e, In e es → p e h = Ret (f e, h)) →
  array_filter p es h = Ret (List.filter (fun e => truthy (f e)) es, h).
Proof.
  induction es as [|e es IH]; intros Hp; [reflexivity|].
  simpl. unfold bind at 1. rewrite (Hp e) by (by left).
  unfold bind at 1. rewrite IH by (intros; apply Hp; by right).
  unfold ret. by destruct (truthy (f e)).
Qed.

Lemma array_map_reads (g : value → M value) (f : value → value) h es :
  (∀ e, In e es → g e h = Ret (f e, h)) →
  array_map g es h = Ret (map f es, h).
Proof.
  induction es as [|e es IH]; intros Hg; [reflexivity|].
  simpl. unfold bind at 1. rewrite (Hg e) by (by left).
  unfold bind at 1. rewrite IH by (intros; apply Hg; by right).
  reflexivity.
Qed.

(** ** parseArgs *)

(** C3. For a CallExpression, [parseArgs] returns the values of the
    arguments that are Literal nodes with a truthy value, in argument
    order; for any other node it returns the empty array. The store is
    left as it was. *)
Theorem parseArgs_literals (h : store) (node : value) :
  (∀ args,
     has_type h node "CallExpression" = true →
     read_array h (prop_of h node "arguments") = Ret args →
     parseArgs node h =
       Ret (map (fun a => prop_of h a "value")
              (List.filter
                 (fun a => has_type h a "Literal" && truthy (prop_of h a "value"))
                 args), h))
  ∧ (has_type h node "CallExpression" = false →
     parseArgs node h = Ret ([], h)).
Proof.
  split.
  - intros args Hcall Hargs.
    unfold parseArgs. unfold_types. mstep. rewrite Hcall. mstep.
    rewrite (has_type_read _ _ _ "arguments" Hcall). mstep.
    rewrite bind_as_array, Hargs.
    unfold bind at 1.
    rewrite (array_filter_reads _
               (fun a => if has_type h a "Literal" then prop_of h a "value"
                         else VBool false)).
    + rewrite (array_map_reads _ (fun a => prop_of h a "value")).
      * do 2 f_equal. f_equal. apply List.filter_ext. intros a.
        by destruct (has_type h a "Literal").
      * intros a [_ Hlit]%List.filter_In.
        destruct (has_type h a "Literal") eqn:E; [|discriminate].
        rewrite get_run, (has_type_read _ _ _ "value" E). reflexivity.
    + intros a _. mstep.
      destruct (has_type h a "Literal") eqn:E; [|reflexivity].
      rewrite get_run, (has_type_read _ _ _ "value" E). reflexivity.
  - intros Hcall. unfold parseArgs. unfold_types. mstep.
    rewrite Hcall. reflexivity.
Qed.

Lemma parseArgs_literals_witness :
  parseArgs (VRef 1) store_args = Ret ([VStr "x"; VStr "y"], store_args)
  ∧ parseArgs (VRef 2) store_args = Ret ([], store_args).
Proof.
  split.
  - apply (proj1 (parseArgs_literals store_args (VRef 1))
             [VRef 4; VRef 5; VRef 6; VRef 7]);
      vm_compute; reflexivity.
  - apply (proj2 (parseArgs_literals store_args (VRef 2))).
    vm_compute. reflexivity.
Defined.

(** ** getName *)

Lemma read_string_name h name :
  read_string h (name_value name) = Ret (name_text name).
Proof. destruct name; reflexivity. Qed.

(** More fuel does not change a result. *)
Lemma getName_fuel_mono (fuel : nat) :
  ∀ (fuel' : nat) v h r,
    (fuel ≤ fuel')%nat →
    getName fuel v h = Ret r → getName fuel' v h = Ret r.
Proof.
  induction fuel as [|fuel IH]; intros fuel' v h r Hle; [discriminate|].
  destruct fuel' as [|fuel']; [lia|].
  assert (Hle' : (fuel ≤ fuel')%nat) by lia.
  simpl. unfold_types.
  apply bind_mono; [auto|]. intros ident h1.
  destruct ident; [auto|].
  apply bind_mono; [auto|]. intros call h2.
  apply bind_mono; [auto|]. intros call' h3.
  destruct call'.
  { apply bind_mono; [auto|]. intros callee h4. by apply IH. }
  apply bind_mono; [auto|]. intros member h4.
  apply bind_mono; [auto|]. intros member' h5.
  destruct member'; [|auto].
  apply bind_mono; [auto|]. intros o h6.
  apply bind_mono; [intros x; by apply IH|]. intros on h7.
  apply bind_mono; [auto|]. intros left h8.
  apply bind_mono; [auto|]. intros p h9.
  apply bind_mono; [intros x; by apply IH|]. auto.
Qed.

(** C4, as amended. On a finite tree [getName] returns the name of an
    Identifier, the name of the callee for a call or optional call, and
    for a member or optional member access the texts of the names of its
    object and property joined by a dot, where a part without a name
    contributes the text [undefined]; a node of any other kind has no
    name ([undefined]). The store is left as it was. *)
Theorem getName_expr_name (h : store) (e : expr) :
  ∀ v fuel,
    represents h v e = true → expr_depth e < fuel →
    getName fuel v h = Ret (name_value (expr_name e), h).
Proof.
  induction e as [n|opt c IH|opt o IHo p IHp|]; intros v fuel Hrep Hfuel;
    (destruct fuel as [|fuel]; [lia|]); simpl in Hrep, Hfuel |- *;
    unfold_types; mstep.
  - apply andb_true_iff in Hrep as [Hid Hname%strict_eq_true].
    rewrite Hid. mstep.
    rewrite (has_type_read _ _ _ "name" Hid), Hname. reflexivity.
  - apply andb_true_iff in Hrep as [Hty Hc].
    rewrite (has_type_other _ _ _ "Identifier" Hty) by (by destruct opt).
    mstep.
    destruct opt.
    + rewrite (has_type_other _ _ _ "CallExpression" Hty) by discriminate.
      mstep. rewrite Hty. mstep.
      rewrite (has_type_read _ _ _ "callee" Hty). apply IH; [exact Hc|lia].
    + rewrite Hty. mstep.
      rewrite (has_type_read _ _ _ "callee" Hty). apply IH; [exact Hc|lia].
  - apply andb_true_iff in Hrep as [Hrep Hp].
    apply andb_true_iff in Hrep as [Hty Ho].
    rewrite (has_type_other _ _ _ "Identifier" Hty) by (by destruct opt).
    mstep.
    rewrite (has_type_other _ _ _ "CallExpression" Hty) by (by destruct opt).
    mstep.
    rewrite (has_type_other _ _ _ "OptionalCallExpression" Hty)
      by (by destruct opt).
    mstep.
    assert (Hmem : (if has_type h v "MemberExpression" then ret true
                    else is_type "OptionalMemberExpression" v) h
                   = Ret (true, h)).
    { destruct opt.
      - rewrite (has_type_other _ _ _ "MemberExpression" Hty) by discriminate.
        unfold is_type, reading. by rewrite Hty.
      - by rewrite Hty. }
    unfold bind at 1. rewrite Hmem. mstep.
    rewrite (has_type_read _ _ _ "object" Hty).
    unfold bind at 1. rewrite (IHo _ fuel Ho) by lia.
    rewrite bind_to_string, read_string_name. mstep.
    rewrite (has_type_read _ _ _ "property" Hty).
    unfold bind at 1. rewrite (IHp _ fuel Hp) by lia.
    rewrite bind_to_string, read_string_name. reflexivity.
  - apply negb_true_iff in Hrep. unfold has_name_variant in Hrep.
    apply orb_false_iff in Hrep as [Hrep Hom].
    apply orb_false_iff in Hrep as [Hrep Hmem].
    apply orb_false_iff in Hrep as [Hrep Hopt].
    apply orb_false_iff in Hrep as [Hrep Hcall].
    rewrite Hrep. mstep. rewrite Hcall. mstep. rewrite Hopt. mstep.
    rewrite Hmem. mstep. rewrite Hom. reflexivity.
Qed.

Lemma getName_expr_name_witness :
  getName 3 (VRef 1) store_xy_call = Ret (VStr "x.y", store_xy_call)
  ∧ getName 4 (VRef 1) store_this_call
      = Ret (VStr "undefined.x.y", store_this_call)
  ∧ getName 1 (VRef 4) store_this_call = Ret (VUndefined, store_this_call).
Proof.
  split; [|split].
  - apply (getName_expr_name store_xy_call
             (Call false (Member false (Ident "x") (Ident "y"))) (VRef 1) 3).
    + vm_compute. reflexivity.
    + simpl. lia.
  - apply (getName_expr_name store_this_call
             (Call false
                (Member false (Member false Unnamed (Ident "x")) (Ident "y")))
             (VRef 1) 4).
    + vm_compute. reflexivity.
    + simpl. lia.
  - apply (getName_expr_name store_this_call Unnamed (VRef 4) 1).
    + vm_compute. reflexivity.
    + simpl. lia.
Defined.

(** C4, as stated, fails on its own example: for the call [this.x.y()]
    (node 1 of [store_this_call]) the root is a [ThisExpression], which
    has no name, so the result is ['undefined.x.y'] and no amount of fuel
    gives ['this.x.y']. *)
Lemma getName_this_call :
  getName 4 (VRef 1) store_this_call
    = Ret (VStr "undefined.x.y", store_this_call)
  ∧ ¬ (∃ fuel, getName fuel (VRef 1) store_this_call
                 = Ret (VStr "this.x.y", store_this_call)).
Proof.
  assert (Hrun : getName 4 (VRef 1) store_this_call
                 = Ret (VStr "undefined.x.y", store_this_call))
    by (vm_compute; reflexivity).
  split; [exact Hrun|]. intros [fuel Hfuel].
  apply (getName_fuel_mono _ (fuel + 4)) in Hfuel; [|lia].
  apply (getName_fuel_mono _ (fuel + 4)) in Hrun; [|lia].
  rewrite Hrun in Hfuel. inversion Hfuel.
Qed.

(** ** getAncestor and isInLeftSideOfAssignmentExpression *)

Lemma nth_parent_falsy h n k :
  truthy n = false → truthy (nth_parent h n k) = false.
Proof.
  revert n. induction k as [|k IH]; intros n Hn; [exact Hn|].
  simpl. apply IH. unfold prop_of.
  destruct n; try reflexivity; discriminate.
Qed.

(** The upward walk with a predicate that only reads and decides [q]:
    it returns the nearest ancestor satisfying [q], or [null] when the
    chain of parents ends without one. *)
Lemma getAncestor_walk (predicate : value → M value) (q : value → bool) h :
  (∀ v, truthy v = true →
        ∃ r, predicate v h = Ret (r, h) ∧ truthy r = q v) →
  ∀ (d : nat) n (fuel : nat),
    truthy (nth_parent h n d) = false → d < fuel →
    (∃ k, getAncestor fuel n predicate h = Ret (nth_parent h n k, h)
          ∧ truthy (nth_parent h n k) = true
          ∧ q (nth_parent h n k) = true)
    ∨ (getAncestor fuel n predicate h = Ret (VNull, h)
       ∧ ∀ k, truthy (nth_parent h n k) = true → q (nth_parent h n k) = false).
Proof.
  intros Hpred. induction d as [|d IH]; intros n fuel Hend Hfuel;
    (destruct fuel as [|fuel]; [lia|]); simpl in Hend.
  - right. simpl. rewrite Hend. split; [reflexivity|].
    intros k Hk. by rewrite nth_parent_falsy in Hk.
  - destruct (truthy n) eqn:Hn.
    + destruct (Hpred n Hn) as (r & Hrun & Hr).
      destruct (truthy r) eqn:Htr.
      * left. exists 0. simpl. rewrite Hn. unfold bind. rewrite Hrun, Htr.
        rewrite <- Hr. auto.
      * assert (Hstep : getAncestor (S fuel) n predicate h
                        = getAncestor fuel (prop_of h n "parent") predicate h).
        { simpl. rewrite Hn. unfold bind at 1. rewrite Hrun, Htr. mstep.
          by rewrite (truthy_read _ _ _ Hn). }
        rewrite Hstep.
        destruct (IH (prop_of h n "parent") fuel Hend) as
          [(k & Hk & Hkt & Hkq)|[Hnull Hnone]]; [lia| |].
        -- left. exists (S k). auto.
        -- right. split; [exact Hnull|].
           intros [|k] Hk; simpl in *; [congruence|by apply Hnone].
    + right. simpl. rewrite Hn. split; [reflexivity|].
      intros k Hk. by rewrite nth_parent_falsy in Hk.
Qed.

Lemma onLeftOfAssignment_reads h v :
  truthy v = true →
  ∃ r, onLeftOfAssignment v h = Ret (r, h) ∧ truthy r = on_left h v.
Proof.
  intros Hv. unfold onLeftOfAssignment, on_left. unfold_types. mstep.
  rewrite (truthy_read _ _ _ Hv).
  destruct (truthy (prop_of h v "parent")) eqn:Hp; cbn [negb andb].
  - mstep. rewrite (truthy_read _ _ _ Hv). mstep.
    destruct (has_type h (prop_of h v "parent") "AssignmentExpression")
      eqn:Ha; cbn [negb andb].
    + mstep. rewrite (truthy_read _ _ _ Hv). mstep.
      rewrite (has_type_read _ _ _ "left" Ha). eauto.
    + eauto.
  - eauto.
Qed.

(** C5. When the chain of parents of [node] ends,
    [isInLeftSideOfAssignmentExpression] returns, and it answers [true]
    exactly when some ancestor [a] of [node], [node] included, has an
    AssignmentExpression as its parent and is that parent's [left]. *)
Theorem isInLeftSideOfAssignmentExpression_iff (h : store) (node : value)
    (d fuel : nat) :
  truthy (nth_parent h node d) = false → d < fuel →
  ∃ answer,
    isInLeftSideOfAssignmentExpression fuel node h = Ret (answer, h)
    ∧ (answer = true ↔ ∃ k, on_left h (nth_parent h node k) = true).
Proof.
  intros Hend Hfuel. unfold isInLeftSideOfAssignmentExpression.
  destruct (getAncestor_walk onLeftOfAssignment (on_left h) h
              (onLeftOfAssignment_reads h) d node fuel Hend Hfuel)
    as [(k & Hrun & Hkt & Hkq)|[Hnull Hnone]].
  - exists true. unfold bind. rewrite Hrun. unfold ret. rewrite Hkt.
    split; [reflexivity|]. split; eauto.
  - exists false. unfold bind. rewrite Hnull. split; [reflexivity|].
    split; [discriminate|]. intros [k Hk].
    destruct (truthy (nth_parent h node k)) eqn:Hkt.
    + rewrite Hnone in Hk by exact Hkt. discriminate.
    + unfold on_left in Hk.
      assert (Hp : prop_of h (nth_parent h node k) "parent" = VUndefined).
      { unfold prop_of.
        destruct (nth_parent h node k); try reflexivity; discriminate. }
      rewrite Hp in Hk. discriminate.
Qed.

Lemma isInLeftSideOfAssignmentExpression_iff_witness :
  ∃ answer,
    isInLeftSideOfAssignmentExpression 7 (VRef 7) store_assign
      = Ret (answer, store_assign)
    ∧ (answer = true ↔ ∃ k, on_left store_assign
                               (nth_parent store_assign (VRef 7) k) = true).
Proof.
  apply (isInLeftSideOfAssignmentExpression_iff store_assign (VRef 7) 6 7).
  - vm_compute. reflexivity.
  - lia.
Defined.

(** In [this.x.y = 1] the nodes for [this], [x] and [y] are on the left
    side and the node for [1] is not. *)
Example isInLeftSideOfAssignmentExpression_this_x_y :
  isInLeftSideOfAssignmentExpression 7 (VRef 6) store_assign
    = Ret (true, store_assign)
  ∧ isInLeftSideOfAssignmentExpression 7 (VRef 7) store_assign
      = Ret (true, store_assign)
  ∧ isInLeftSideOfAssignmentExpression 7 (VRef 8) store_assign
      = Ret (true, store_assign)
  ∧ isInLeftSideOfAssignmentExpression 7 (VRef 9) store_assign
      = Ret (false, store_assign).
Proof. repeat split; vm_compute; reflexivity. Qed.

(** ** collectObjectPatternBindings *)

Lemma index_of_none x es : index_of x es = None ↔ ¬ In x es.
Proof.
  induction es as [|e es IH]; simpl; [tauto|].
  unfold strict_eq. case_bool_decide as He.
  - split; [discriminate|]. intros Hn. destruct Hn. by left.
  - destruct (index_of x es).
    + split; [discriminate|]. intros Hn. destruct IH as [_ IH].
      assert (Hno : ¬ In x es) by tauto.
      specialize (IH Hno). discriminate.
    + split; [|reflexivity]. intros _ [->|Hin]; [done|]. by apply IH.
Qed.

Lemma index_of_some x es i : index_of x es = Some i → elem_at es i = x.
Proof.
  revert i. induction es as [|e es IH]; intros i; simpl; [discriminate|].
  unfold strict_eq. case_bool_decide as He.
  - intros [= <-]. exact He.
  - destruct (index_of x es) as [j|]; [|discriminate].
    intros [= <-]. by apply IH.
Qed.

(** C6, as amended. [collectObjectPatternBindings] returns the empty
    array when the declarator's [id] is not an ObjectPattern, and when its
    [init] is present with a name that is not a key of the binding map;
    when the name of [init] is a key and every element of the pattern's
    properties has a key and a value, it returns, in the order of the
    pattern's properties, the local name of every property whose key name
    is in the list bound to that key. The store is left as it was. *)
Theorem collectObjectPatternBindings_spec (h : store) (node bindings : value) :
  let id := prop_of h node "id" in
  let init := prop_of h node "init" in
  truthy node = true →
  (has_type h id "ObjectPattern" = false →
   collectObjectPatternBindings node bindings h = Ret ([], h))
  ∧ (∀ keys,
       has_type h id "ObjectPattern" = true →
       read_keys h bindings = Ret keys →
       truthy init = true →
       ¬ In (prop_of h init "name") keys →
       collectObjectPatternBindings node bindings h = Ret ([], h))
  ∧ (∀ keys key names props,
       has_type h id "ObjectPattern" = true →
       read_keys h bindings = Ret keys →
       truthy init = true →
       prop_of h init "name" = VStr key →
       In (VStr key) keys →
       read_array h (prop_of h bindings key) = Ret names →
       read_array h (prop_of h id "properties") = Ret props →
       forallb (is_property h) props = true →
       collectObjectPatternBindings node bindings h =
         Ret (map (local_name h)
                (List.filter (fun p => among names (key_name h p)) props), h)).
Proof.
  intros id init Hnode. repeat split.
  - intros Hid. unfold collectObjectPatternBindings. unfold_types. mstep.
    rewrite (truthy_read _ _ _ Hnode). fold id. mstep. rewrite Hid.
    reflexivity.
  - intros keys Hid Hkeys Hinit Hout.
    unfold collectObjectPatternBindings. unfold_types. mstep.
    rewrite (truthy_read _ _ _ Hnode). fold id. mstep. rewrite Hid.
    cbn [negb]. mstep. rewrite bind_object_keys, Hkeys. mstep.
    rewrite (truthy_read _ _ _ Hnode). fold init. mstep.
    rewrite (truthy_read _ _ _ Hinit).
    apply index_of_none in Hout. rewrite Hout. reflexivity.
  - intros keys key names props Hid Hkeys Hinit Hname Hin Hnames Hprops Hwf.
    unfold collectObjectPatternBindings. unfold_types. mstep.
    rewrite (truthy_read _ _ _ Hnode). fold id. mstep. rewrite Hid.
    cbn [negb]. mstep. rewrite bind_object_keys, Hkeys. mstep.
    rewrite (truthy_read _ _ _ Hnode). fold init. mstep.
    rewrite (truthy_read _ _ _ Hinit), Hname.
    destruct (index_of (VStr key) keys) as [i|] eqn:Hi;
      [|by apply index_of_none in Hi].
    apply index_of_some in Hi. rewrite Hi. mstep.
    rewrite (truthy_read _ _ _ Hnode). fold id. mstep.
    rewrite (has_type_read _ _ _ "properties" Hid). mstep.
    rewrite bind_as_array, Hprops.
    rewrite forallb_forall in Hwf.
    unfold bind at 1.
    rewrite (array_filter_reads _
               (fun p => VBool (among names (key_name h p)))).
    + rewrite (array_map_reads _ (local_name h)); [reflexivity|].
      intros p [Hp _]%List.filter_In.
      specialize (Hwf p Hp). unfold is_property in Hwf.
      apply andb_true_iff in Hwf as [Hwf Hv].
      apply andb_true_iff in Hwf as [Hpt Hk].
      mstep. rewrite (truthy_read _ _ _ Hpt). mstep.
      rewrite (truthy_read _ _ _ Hv). reflexivity.
    + intros p Hp.
      specialize (Hwf p Hp). unfold is_property in Hwf.
      apply andb_true_iff in Hwf as [Hwf Hv].
      apply andb_true_iff in Hwf as [Hpt Hk].
      rewrite bind_to_string. cbn [read_string prim_to_string]. mstep.
      rewrite (read_keys_read _ _ _ key Hkeys). mstep.
      rewrite (truthy_read _ _ _ Hpt). mstep.
      rewrite (truthy_read _ _ _ Hk). mstep.
      rewrite bind_includes, (read_array_includes _ _ _ _ Hnames).
      reflexivity.
Qed.

Lemma collectObjectPatternBindings_spec_witness :
  collectObjectPatternBindings (VRef 10) (VRef 8) store_destructure
    = Ret ([], store_destructure)
  ∧ collectObjectPatternBindings (VRef 12) (VRef 8) store_destructure
      = Ret ([], store_destructure)
  ∧ collectObjectPatternBindings (VRef 1) (VRef 8) store_destructure
      = Ret ([VStr "foo"], store_destructure).
Proof.
  split; [|split].
  - apply (collectObjectPatternBindings_spec store_destructure
             (VRef 10) (VRef 8)); vm_compute; reflexivity.
  - apply (proj1 (proj2 (collectObjectPatternBindings_spec store_destructure
             (VRef 12) (VRef 8) eq_refl))
             [VStr "Ember"]);
      try (vm_compute; reflexivity).
    vm_compute. intros [H|[]]; discriminate.
  - apply (proj2 (proj2 (collectObjectPatternBindings_spec store_destructure
             (VRef 1) (VRef 8) eq_refl))
             [VStr "Ember"] "Ember" [VStr "$"] [VRef 7]);
      try (vm_compute; reflexivity).
    vm_compute. by left.
Defined.

(** C6, as stated, fails on two declarators whose [id] is an
    ObjectPattern. For [const { $, ...rest } = Ember] (node 7 of
    [store_patterns]) with the map [{ Ember: ['$'] }] the property [$] is
    bound and [['$']] is expected, but the filter callback reads
    [props.key.name] of the rest element and throws. For the declarator of
    [for (const { a } of list) {}] (node 3 of [store_for_of]) there is no
    [init], so no name of it is a key of the map and the empty array is
    expected, but reading [node.init.name] throws. *)
Lemma collectObjectPatternBindings_throws :
  (collectObjectPatternBindings (VRef 7) (VRef 14) store_patterns
     = Err TypeError
   ∧ ¬ (∀ (h : store) (node bindings : value) keys key names props,
          truthy node = true →
          has_type h (prop_of h node "id") "ObjectPattern" = true →
          read_keys h bindings = Ret keys →
          prop_of h (prop_of h node "init") "name" = VStr key →
          In (VStr key) keys →
          read_array h (prop_of h bindings key) = Ret names →
          read_array h (prop_of h (prop_of h node "id") "properties")
            = Ret props →
          collectObjectPatternBindings node bindings h =
            Ret (map (local_name h)
                   (List.filter (fun p => among names (key_name h p)) props),
                 h)))
  ∧ (collectObjectPatternBindings (VRef 3) (VRef 12) store_for_of
       = Err TypeError
     ∧ ¬ (∀ (h : store) (node bindings : value) keys,
            truthy node = true →
            has_type h (prop_of h node "id") "ObjectPattern" = true →
            read_keys h bindings = Ret keys →
            ¬ In (prop_of h (prop_of h node "init") "name") keys →
            collectObjectPatternBindings node bindings h = Ret ([], h))).
Proof.
  assert (Hrest : collectObjectPatternBindings (VRef 7) (VRef 14)
                    store_patterns = Err TypeError)
    by (vm_compute; reflexivity).
  assert (Hinit : collectObjectPatternBindings (VRef 3) (VRef 12)
                    store_for_of = Err TypeError)
    by (vm_compute; reflexivity).
  split; (split; [assumption|]); intros Hclaim.
  - specialize (Hclaim store_patterns (VRef 7) (VRef 14)
                  [VStr "Ember"] "Ember" [VStr "$"] [VRef 10; VRef 11]).
    rewrite Hrest in Hclaim.
    assert (Hbad : Err TypeError
                   = Ret (map (local_name store_patterns)
                            (List.filter
                               (fun p => among [VStr "$"]
                                           (key_name store_patterns p))
                               [VRef 10; VRef 11]), store_patterns)).
    { apply Hclaim; try (vm_compute; reflexivity). vm_compute. by left. }
    discriminate Hbad.
  - specialize (Hclaim store_for_of (VRef 3) (VRef 12) [VStr "Ember"]).
    rewrite Hinit in Hclaim.
    assert (Hbad : Err TypeError = Ret ([] : list value, store_for_of)).
    { apply Hclaim; try (vm_compute; reflexivity).
      vm_compute. intros [H|[]]; discriminate. }
    discriminate Hbad.
Qed.

(** ** findUnorderedProperty *)

Lemma has_order_read h e :
  has_order h e = true →
  truthy e = true ∧ prop_of h e "order" = VNum (order_of h e).
Proof.
  unfold has_order, order_of. intros [He Ho]%andb_true_iff.
  split; [exact He|]. destruct (prop_of h e "order"); try discriminate.
  reflexivity.
Qed.

(** The loop from index [i] on, when the pairs before [i] are in order. *)
Lemma findUnorderedProperty_loop_scan h arr es :
  read_array h arr = Ret es →
  forallb (has_order h) es = true →
  ∀ steps i,
    S (i + steps) = length es ∨ (steps = 0 ∧ length es ≤ S i) →
    (∀ j x y, j < i → es !! j = Some x → es !! S j = Some y →
              (order_of h x ≤ order_of h y)%Z) →
    (∃ k a b,
       es !! k = Some a ∧ es !! S k = Some b
       ∧ (order_of h a > order_of h b)%Z
       ∧ (∀ j x y, j < k → es !! j = Some x → es !! S j = Some y →
                   (order_of h x ≤ order_of h y)%Z)
       ∧ findUnorderedProperty_loop steps i arr h = Ret (a, h))
    ∨ ((∀ j x y, es !! j = Some x → es !! S j = Some y →
                 (order_of h x ≤ order_of h y)%Z)
       ∧ findUnorderedProperty_loop steps i arr h = Ret (VNull, h)).
Proof.
  intros Harr Hwf. rewrite forallb_forall in Hwf.
  induction steps as [|steps IH]; intros i Hlen Hbefore.
  - right. split; [|reflexivity]. intros j x y Hx Hy.
    apply (Hbefore j x y); [|exact Hx|exact Hy].
    apply lookup_lt_Some in Hy. lia.
  - destruct Hlen as [Hlen|[? _]]; [|discriminate].
    destruct (lookup_lt_is_Some_2 es i) as [a Ha]; [lia|].
    destruct (lookup_lt_is_Some_2 es (S i)) as [b Hb]; [lia|].
    destruct (has_order_read h a) as [Hat Hao].
    { apply Hwf, list_elem_of_In, list_elem_of_lookup. eauto. }
    destruct (has_order_read h b) as [Hbt Hbo].
    { apply Hwf, list_elem_of_In, list_elem_of_lookup. eauto. }
    assert (Hstep :
      findUnorderedProperty_loop (S steps) i arr h =
      if (order_of h a >? order_of h b)%Z then Ret (a, h)
      else findUnorderedProperty_loop steps (S i) arr h).
    { simpl. rewrite bind_get_index, (read_array_index _ _ _ _ Harr).
      unfold elem_at. rewrite (nth_lookup_Some _ _ _ _ Ha). mstep.
      rewrite (truthy_read _ _ _ Hat), Hao.
      rewrite bind_get_index, (read_array_index _ _ _ _ Harr).
      unfold elem_at. rewrite Nat.add_1_r, (nth_lookup_Some _ _ _ _ Hb).
      mstep. rewrite (truthy_read _ _ _ Hbt), Hbo.
      cbn [compare]. mstep.
      destruct (order_of h a >? order_of h b)%Z; [|reflexivity].
      unfold get_index, reading.
      rewrite (read_array_index _ _ _ _ Harr).
      unfold elem_at. by rewrite (nth_lookup_Some _ _ _ _ Ha). }
    rewrite Hstep.
    destruct (order_of h a >? order_of h b)%Z eqn:Hgt.
    + left. exists i, a, b. repeat split; auto. lia.
    + apply IH.
      * destruct steps; [right|left]; lia.
      * intros j x y Hj Hx Hy.
        destruct (decide (j = i)) as [->|Hne].
        -- rewrite Ha in Hx. rewrite Hb in Hy.
           injection Hx as <-. injection Hy as <-. lia.
        -- apply (Hbefore j x y); [lia|exact Hx|exact Hy].
Qed.

(** C7. On an array of records with a numeric [order],
    [findUnorderedProperty] returns the first element whose order exceeds
    that of its immediate successor, every pair before it being in order;
    it returns [null] when no element exceeds its successor. The store is
    left as it was. *)
Theorem findUnorderedProperty_first (h : store) (arr : value)
    (es : list value) :
  read_array h arr = Ret es →
  forallb (has_order h) es = true →
  (∃ k a b,
     es !! k = Some a ∧ es !! S k = Some b
     ∧ (order_of h a > order_of h b)%Z
     ∧ (∀ j x y, j < k → es !! j = Some x → es !! S j = Some y →
                 (order_of h x ≤ order_of h y)%Z)
     ∧ findUnorderedProperty arr h = Ret (a, h))
  ∨ ((∀ j x y, es !! j = Some x → es !! S j = Some y →
               (order_of h x ≤ order_of h y)%Z)
     ∧ findUnorderedProperty arr h = Ret (VNull, h)).
Proof.
  intros Harr Hwf.
  assert (Hrun : findUnorderedProperty arr h =
                 findUnorderedProperty_loop (length es - 1) 0 arr h).
  { unfold findUnorderedProperty. mstep.
    rewrite (read_array_length _ _ _ Harr). f_equal. lia. }
  rewrite Hrun.
  apply (findUnorderedProperty_loop_scan h arr es Harr Hwf).
  - destruct es as [|e es']; simpl; [right|left]; lia.
  - intros j x y Hj. lia.
Qed.

Lemma findUnorderedProperty_first_witness :
  (∃ k a b,
     [VRef 3; VRef 4; VRef 5] !! k = Some a
     ∧ [VRef 3; VRef 4; VRef 5] !! S k = Some b
     ∧ (order_of store_orders a > order_of store_orders b)%Z
     ∧ (∀ j x y, j < k → [VRef 3; VRef 4; VRef 5] !! j = Some x →
                 [VRef 3; VRef 4; VRef 5] !! S j = Some y →
                 (order_of store_orders x ≤ order_of store_orders y)%Z)
     ∧ findUnorderedProperty (VRef 1) store_orders = Ret (a, store_orders))
  ∨ ((∀ j x y, [VRef 3; VRef 4; VRef 5] !! j = Some x →
               [VRef 3; VRef 4; VRef 5] !! S j = Some y →
               (order_of store_orders x ≤ order_of store_orders y)%Z)
     ∧ findUnorderedProperty (VRef 1) store_orders = Ret (VNull, store_orders)).
Proof.
  apply (findUnorderedProperty_first store_orders (VRef 1)
           [VRef 3; VRef 4; VRef 5]); vm_compute; reflexivity.
Defined.

(** The record with order 3 is returned from [[1, 3, 2]]; an array that
    never decreases gives [null]. *)
Example findUnorderedProperty_orders :
  findUnorderedProperty (VRef 1) store_orders = Ret (VRef 4, store_orders)
  ∧ findUnorderedProperty (VRef 2) store_orders = Ret (VNull, store_orders).
Proof. split; vm_compute; reflexivity. Qed.

(** ** getPropertyValue *)

Lemma closed_cell h l c v :
  closed h = true → h !! l = Some c → In v (cell_values c) →
  valid h v = true.
Proof.
  unfold closed. rewrite forallb_forall. intros Hcl Hl Hv.
  specialize (Hcl (l, c)). rewrite forallb_forall in Hcl.
  apply Hcl; [|exact Hv].
  apply list_elem_of_In, elem_of_map_to_list. exact Hl.
Qed.

Lemma field_in fs key :
  field fs key = VUndefined ∨ In (field fs key) (map snd fs).
Proof.
  induction fs as [|[k v] fs IH]; simpl; [by left|].
  destruct (String.eqb k key); [right; by left|].
  destruct IH; [by left|right; by right].
Qed.

Lemma elem_at_in es i : elem_at es i = VUndefined ∨ In (elem_at es i) es.
Proof.
  unfold elem_at. destruct (nth_in_or_default i es VUndefined); auto.
Qed.

(** Reading in a closed store gives a valid value. *)
Lemma closed_read h v key p :
  closed h = true → valid h v = true → read_prop h v key = Ret p →
  valid h p = true.
Proof.
  intros Hcl Hv. destruct v as [| | | |s|l]; simpl; try discriminate;
    try (intros [= <-]; reflexivity).
  - intros [= <-]. unfold string_prop.
    destruct (String.eqb key "length"); [reflexivity|].
    destruct (index_of_key key); [|reflexivity].
    by destruct (String.get n s).
  - destruct (h !! l) as [[fs|es]|] eqn:Hl; intros [= <-]; [| |reflexivity].
    + destruct (field_in fs key) as [->|Hin]; [reflexivity|].
      by apply (closed_cell h l (CObj fs)).
    + unfold array_prop. destruct (String.eqb key "length"); [reflexivity|].
      destruct (index_of_key key) as [i|]; [|reflexivity].
      destruct (elem_at_in es i) as [->|Hin]; [reflexivity|].
      by apply (closed_cell h l (CArr es)).
Qed.

(** A cell added at an unused location is invisible from valid values. *)
Lemma read_prop_insert h l c v key :
  h !! l = None → valid h v = true →
  read_prop (<[l := c]> h) v key = read_prop h v key.
Proof.
  intros Hl Hv. destruct v as [| | | | |l']; try reflexivity.
  simpl in *. destruct (decide (l = l')) as [->|Hne].
  - by rewrite Hl in Hv.
  - by rewrite lookup_insert_ne.
Qed.

Lemma mapM_elem_to_string_strs (ks : list string) :
  mapM elem_to_string (map VStr ks) = Some ks.
Proof.
  induction ks as [|k ks IH]; [reflexivity|].
  change (map VStr (k :: ks)) with (VStr k :: map VStr ks).
  change (mapM elem_to_string (VStr k :: map VStr ks))
    with (y ← elem_to_string (VStr k);
          r ← mapM elem_to_string (map VStr ks); mret (y :: r)).
  rewrite IH. reflexivity.
Qed.

Lemma strict_eq_num n m : strict_eq (VNum n) (VNum m) = (n =? m)%Z.
Proof.
  unfold strict_eq. destruct (Z.eqb_spec n m) as [->|Hne].
  - by apply bool_decide_eq_true.
  - apply bool_decide_eq_false. congruence.
Qed.

Lemma walk_deeper h v k k' ks :
  walk h v (k :: k' :: ks) =
  match read_prop h v k with
  | Ret p => if truthy p then walk h p (k' :: ks) else Ret (p, k :: k' :: ks)
  | Err e => Err e
  end.
Proof. reflexivity. Qed.

(** The recursion on a path array that nothing else in the store refers
    to: the result is that of [walk], and the array keeps the segments
    that were not consumed. *)
Lemma getPropertyValue_parts h l :
  h !! l = None → closed h = true →
  ∀ parts node fuel,
    valid h node = true → length parts < fuel →
    getPropertyValue fuel node (VRef l) (<[l := CArr (map VStr parts)]> h) =
    match walk h node parts with
    | Ret (r, rest) => Ret (r, <[l := CArr (map VStr rest)]> h)
    | Err e => Err e
    end.
Proof.
  intros Hl Hcl. induction parts as [|k parts IH]; intros node fuel Hv Hfuel;
    (destruct fuel as [|fuel]; [simpl in Hfuel; lia|]).
  - simpl. mstep. simpl. rewrite lookup_insert_eq. simpl. mstep.
    rewrite bind_get_index. simpl. rewrite lookup_insert_eq. simpl.
    rewrite bind_to_string. simpl. mstep.
    rewrite (read_prop_insert _ _ _ _ _ Hl Hv).
    destruct (read_prop h node "undefined") as [p|e]; [|reflexivity].
    destruct (truthy p); [|reflexivity].
    mstep. simpl. rewrite lookup_insert_eq. reflexivity.
  - cbn [getPropertyValue]. mstep.
    cbn [read_prop]. rewrite lookup_insert_eq.
    unfold array_prop. cbn [String.eqb Ascii.eqb Bool.eqb].
    rewrite strict_eq_num, length_map.
    destruct parts as [|k' parts].
    + simpl. rewrite bind_to_string. simpl. rewrite lookup_insert_eq.
      simpl. mstep. rewrite (read_prop_insert _ _ _ _ _ Hl Hv).
      destruct (read_prop h node k) as [p|e]; reflexivity.
    + assert (Hlen : (Z.of_nat (length (k :: k' :: parts)) =? 1)%Z = false).
      { apply Z.eqb_neq. simpl. lia. }
      rewrite Hlen. rewrite bind_get_index. cbn [read_index].
      rewrite lookup_insert_eq. cbn [map elem_at nth].
      rewrite bind_to_string. cbn [read_string prim_to_string]. mstep.
      rewrite (read_prop_insert _ _ _ _ _ Hl Hv).
      rewrite walk_deeper.
      destruct (read_prop h node k) as [p|e] eqn:Hp; [|reflexivity].
      destruct (truthy p) eqn:Htp; [|reflexivity].
      mstep. cbn [read_prop]. rewrite lookup_insert_eq.
      unfold array_prop. cbn [String.eqb Ascii.eqb Bool.eqb compare].
      assert (Hgt : (Z.of_nat (length (VStr k :: VStr k' :: map VStr parts))
                     >? 1)%Z = true).
      { apply Z.gtb_lt. simpl. lia. }
      rewrite Hgt. mstep.
      rewrite (bind_shift _ l (map VStr (k :: k' :: parts)))
        by apply lookup_insert_eq.
      cbn [map tl]. rewrite insert_insert_eq.
      apply (IH p fuel).
      * by apply (closed_read h node k).
      * simpl in Hfuel |- *. lia.
Qed.

Lemma fresh_unused (h : store) : h !! fresh (dom h) = None.
Proof. apply not_elem_of_dom, is_fresh. Qed.

Lemma split_on_single sep s k : split_on sep s = [k] → s = k.
Proof.
  revert k. induction s as [|c s IH]; intros k; simpl.
  - by intros [= <-].
  - destruct (Ascii.eqb c sep).
    + destruct s; simpl; [discriminate|].
      destruct (Ascii.eqb _ sep); [discriminate|].
      destruct (split_on sep s); discriminate.
    + destruct (split_on sep s) as [|p ps] eqn:Hs.
      * destruct s; simpl in Hs; [discriminate|].
        destruct (Ascii.eqb _ sep); [discriminate|].
        destruct (split_on sep s); discriminate.
      * intros [= <- ->]. by rewrite (IH p eq_refl).
Qed.

(** A dotted string is split into a new array, which the recursion then
    consumes; the result is that of [walk] over the segments. *)
Lemma getPropertyValue_string h s node fuel :
  closed h = true → valid h node = true →
  length (split_on "." s) < fuel →
  getPropertyValue fuel node (VStr s) h =
  match walk h node (split_on "." s) with
  | Ret (r, rest) => Ret (r, <[fresh (dom h) := CArr (map VStr rest)]> h)
  | Err e => Err e
  end.
Proof.
  intros Hcl Hv Hfuel. pose proof (fresh_unused h) as Hl.
  destruct fuel as [|fuel]; [lia|].
  destruct (split_on "." s) as [|k [|k' parts]] eqn:Hs.
  - cbn [getPropertyValue]. rewrite bind_alloc, Hs. simpl. mstep. simpl.
    rewrite lookup_insert_eq. simpl. mstep.
    rewrite bind_get_index. simpl. rewrite lookup_insert_eq. simpl.
    rewrite bind_to_string. simpl. mstep.
    rewrite (read_prop_insert _ _ _ _ _ Hl Hv).
    destruct (read_prop h node "undefined") as [p|e]; [|reflexivity].
    destruct (truthy p); [|reflexivity].
    mstep. simpl. rewrite lookup_insert_eq. reflexivity.
  - apply split_on_single in Hs as Hk. subst k.
    cbn [getPropertyValue]. rewrite bind_alloc, Hs. simpl. mstep. simpl.
    rewrite lookup_insert_eq. simpl. rewrite bind_to_string. simpl. mstep.
    rewrite (read_prop_insert _ _ _ _ _ Hl Hv).
    destruct (read_prop h node s) as [p|e]; reflexivity.
  - rewrite <- (getPropertyValue_parts h _ Hl Hcl _ node (S fuel) Hv Hfuel).
    cbn [getPropertyValue]. rewrite bind_alloc, Hs, bind_ret. mstep.
    cbn [read_prop]. rewrite lookup_insert_eq.
    unfold array_prop. cbn [String.eqb Ascii.eqb Bool.eqb].
    rewrite strict_eq_num.
    assert (Hlen : (Z.of_nat (length (map VStr (k :: k' :: parts))) =? 1)%Z
                   = false).
    { apply Z.eqb_neq. simpl. lia. }
    rewrite Hlen. reflexivity.
Qed.

(** C8, as amended. On a closed store, [getPropertyValue] with a dotted
    string, or with a pre-split array of names that nothing else refers
    to, resolves by repeated property lookup: it returns the value of the
    last segment, unless a segment before the last reads as a falsy value
    ([undefined] for an absent field, but also [null], [false], [0] or
    the empty string), in which case that value itself is returned. A
    single-segment path is a direct property read. The segments that were
    not consumed stay in the path array. *)
Theorem getPropertyValue_walk (h : store) (node : value) :
  closed h = true → valid h node = true →
  (∀ s fuel,
     length (split_on "." s) < fuel →
     getPropertyValue fuel node (VStr s) h =
     match walk h node (split_on "." s) with
     | Ret (r, rest) => Ret (r, <[fresh (dom h) := CArr (map VStr rest)]> h)
     | Err e => Err e
     end)
  ∧ (∀ l parts fuel,
       h !! l = None → length parts < fuel →
       getPropertyValue fuel node (VRef l) (<[l := CArr (map VStr parts)]> h) =
       match walk h node parts with
       | Ret (r, rest) => Ret (r, <[l := CArr (map VStr rest)]> h)
       | Err e => Err e
       end)
  ∧ (∀ k, walk h node [k] =
          match read_prop h node k with
          | Ret p => Ret (p, [k])
          | Err e => Err e
          end)
  ∧ (∀ k k' ks p,
       read_prop h node k = Ret p →
       walk h node (k :: k' :: ks) =
       if truthy p then walk h p (k' :: ks) else Ret (p, k :: k' :: ks)).
Proof.
  intros Hcl Hv. repeat split.
  - intros s fuel Hfuel. by apply getPropertyValue_string.
  - intros l parts fuel Hl Hfuel. by apply getPropertyValue_parts.
  - intros k k' ks p Hp. by rewrite walk_deeper, Hp.
Qed.

Lemma getPropertyValue_walk_witness :
  getPropertyValue 3 (VRef 2) (VStr "key.name") store_path
    = Ret (VStr "foo", <[6 := CArr [VStr "name"]]> store_path)
  ∧ getPropertyValue 3 (VRef 4) (VStr "value.raw") store_path
      = Ret (VUndefined, <[6 := CArr [VStr "raw"]]> store_path)
  ∧ getPropertyValue 2 (VRef 3) (VStr "name") store_path
      = Ret (VStr "foo", <[6 := CArr [VStr "name"]]> store_path).
Proof.
  split; [|split].
  - rewrite (proj1 (getPropertyValue_walk store_path (VRef 2)
                      ltac:(vm_compute; reflexivity)
                      ltac:(vm_compute; reflexivity)))
      by (vm_compute; lia).
    vm_compute. reflexivity.
  - rewrite (proj1 (getPropertyValue_walk store_path (VRef 4)
                      ltac:(vm_compute; reflexivity)
                      ltac:(vm_compute; reflexivity)))
      by (vm_compute; lia).
    vm_compute. reflexivity.
  - rewrite (proj1 (getPropertyValue_walk store_path (VRef 3)
                      ltac:(vm_compute; reflexivity)
                      ltac:(vm_compute; reflexivity)))
      by (vm_compute; lia).
    vm_compute. reflexivity.
Defined.

(** C8, as stated, fails: repeated property lookup of ['value.length'] on
    the literal [''] (node 1 of [store_path]) reaches the length [0] of
    the empty string, and no segment is absent, yet [getPropertyValue]
    returns the empty string itself, because the falsy value of the first
    segment ends the walk. *)
Lemma getPropertyValue_falsy_segment :
  getPropertyValue 3 (VRef 1) (VStr "value.length") store_path
    = Ret (VStr "", <[6 := CArr [VStr "value"; VStr "length"]]> store_path)
  ∧ resolve_path store_path (VRef 1) ["value"; "length"] = VNum 0
  ∧ ¬ (∀ (h : store) (node : value) (s : string) (fuel : nat) r h',
         getPropertyValue fuel node (VStr s) h = Ret (r, h') →
         r = resolve_path h node (split_on "." s)).
Proof.
  assert (Hrun : getPropertyValue 3 (VRef 1) (VStr "value.length") store_path
                 = Ret (VStr "", <[6 := CArr [VStr "value"; VStr "length"]]>
                                   store_path))
    by (vm_compute; reflexivity).
  split; [exact Hrun|]. split; [vm_compute; reflexivity|].
  intros Hclaim. apply Hclaim in Hrun. vm_compute in Hrun. discriminate.
Qed.

(** ** Which helpers only read *)

Lemma read_only_ret {A} (a : A) : read_only (ret a).
Proof. intros h a' h' [= _ <-]. reflexivity. Qed.

Lemma read_only_fail {A} e : read_only (@fail A e).
Proof. intros h a h'. discriminate. Qed.

Lemma read_only_reading {A} (f : store → outcome A) : read_only (reading f).
Proof.
  intros h a h'. unfold reading. destruct (f h); [|discriminate].
  by intros [= _ <-].
Qed.

Lemma read_only_bind {A B} (m : M A) (k : A → M B) :
  read_only m → (∀ a, read_only (k a)) → read_only (bind m k).
Proof.
  intros Hm Hk h b h'. unfold bind.
  destruct (m h) as [[a h1]|e] eqn:E; [|discriminate].
  apply Hm in E as ->. apply Hk.
Qed.

Lemma read_only_array_filter p es :
  (∀ e, read_only (p e)) → read_only (array_filter p es).
Proof.
  intros Hp. induction es as [|e es IH]; simpl.
  - apply read_only_ret.
  - apply read_only_bind; [apply Hp|]. intros keep.
    apply read_only_bind; [apply IH|]. intros rest. apply read_only_ret.
Qed.

Lemma read_only_array_map f es :
  (∀ e, read_only (f e)) → read_only (array_map f es).
Proof.
  intros Hf. induction es as [|e es IH]; simpl.
  - apply read_only_ret.
  - apply read_only_bind; [apply Hf|]. intros x.
    apply read_only_bind; [apply IH|]. intros rest. apply read_only_ret.
Qed.

Lemma read_only_pure {A} (m : M A) : read_only m → pure_read m.
Proof.
  intros Hm h a h' Hrun. pose proof (Hm _ _ _ Hrun) as ->. auto.
Qed.

Create HintDb js_reads.
#[local] Hint Resolve read_only_ret read_only_fail read_only_reading
  : js_reads.

(** Decompose a computation built from reads into its parts. *)
Ltac read_only_step :=
  first
    [ solve [auto with js_reads]
    | apply read_only_reading
    | apply read_only_array_filter; intros ?
    | apply read_only_array_map; intros ?
    | apply read_only_bind; [|intros ?]
    | match goal with
      | |- read_only (if ?b then _ else _) => destruct b
      | |- read_only (match ?x with _ => _ end) => destruct x
      | |- read_only (let '(_, _) := ?x in _) => destruct x
      end ].

Ltac read_only_solve := unfold_types; repeat read_only_step.

Lemma read_only_findNodes body nodeName : read_only (findNodes body nodeName).
Proof. unfold findNodes. read_only_solve. Qed.

Lemma read_only_getSize node : read_only (getSize node).
Proof. unfold getSize, arith. read_only_solve. Qed.

Lemma read_only_parseCallee_loop fuel :
  ∀ callee parsedCallee, read_only (parseCallee_loop fuel callee parsedCallee).
Proof.
  induction fuel as [|fuel IH]; intros callee parsedCallee; simpl;
    read_only_solve; apply IH.
Qed.

Lemma read_only_parseCallee fuel node : read_only (parseCallee fuel node).
Proof.
  unfold parseCallee. read_only_solve.
  all: try apply read_only_parseCallee_loop.
Qed.

Lemma read_only_parseArgs node : read_only (parseArgs node).
Proof. unfold parseArgs. read_only_solve. Qed.

Lemma read_only_findUnorderedProperty_loop steps :
  ∀ i arr, read_only (findUnorderedProperty_loop steps i arr).
Proof.
  induction steps as [|steps IH]; intros i arr; simpl; unfold compare;
    read_only_solve; apply IH.
Qed.

Lemma read_only_findUnorderedProperty arr :
  read_only (findUnorderedProperty arr).
Proof.
  unfold findUnorderedProperty. read_only_solve.
  all: try apply read_only_findUnorderedProperty_loop.
Qed.

Lemma read_only_collectObjectPatternBindings node bindings :
  read_only (collectObjectPatternBindings node bindings).
Proof. unfold collectObjectPatternBindings. read_only_solve. Qed.

Lemma read_only_isEmptyMethod node : read_only (isEmptyMethod node).
Proof. unfold isEmptyMethod, compare. read_only_solve. Qed.

Lemma read_only_getAncestor fuel :
  ∀ node predicate,
    (∀ v, read_only (predicate v)) →
    read_only (getAncestor fuel node predicate).
Proof.
  induction fuel as [|fuel IH]; intros node predicate Hp; simpl.
  - apply read_only_fail.
  - destruct (truthy node); [|apply read_only_ret].
    apply read_only_bind; [apply Hp|]. intros found.
    destruct (truthy found); [apply read_only_ret|].
    apply read_only_bind; [apply read_only_reading|]. intros parent.
    by apply IH.
Qed.

Lemma read_only_getName fuel : ∀ node, read_only (getName fuel node).
Proof.
  induction fuel as [|fuel IH]; intros node; simpl;
    read_only_solve; apply IH.
Qed.

Lemma read_only_onLeftOfAssignment v : read_only (onLeftOfAssignment v).
Proof. unfold onLeftOfAssignment. read_only_solve. Qed.

Lemma read_only_isInLeftSideOfAssignmentExpression fuel node :
  read_only (isInLeftSideOfAssignmentExpression fuel node).
Proof.
  unfold isInLeftSideOfAssignmentExpression.
  apply read_only_bind; [|intros ?; apply read_only_ret].
  apply read_only_getAncestor, read_only_onLeftOfAssignment.
Qed.

Lemma only_writes_read_only {A} l (m : M A) : read_only m → only_writes l m.
Proof. intros Hm h a h' Hrun l' _. by rewrite (Hm _ _ _ Hrun). Qed.

Lemma only_writes_bind {A B} l (m : M A) (k : A → M B) :
  only_writes l m → (∀ a, only_writes l (k a)) → only_writes l (bind m k).
Proof.
  intros Hm Hk h b h' Hrun l' Hne. unfold bind in Hrun.
  destruct (m h) as [[a h1]|e] eqn:E; [|discriminate].
  rewrite (Hk _ _ _ _ Hrun l' Hne). by apply (Hm _ _ _ E).
Qed.

Lemma only_writes_shift l : only_writes l (shift (VRef l)).
Proof.
  intros h a h'. unfold shift.
  destruct (h !! l) as [[fs|es]|]; try discriminate.
  intros [= _ <-] l' Hne. by rewrite lookup_insert_ne.
Qed.

Ltac only_reads := apply only_writes_read_only; read_only_solve.

(** What [getPropertyValue] does once [parts] is the array at [l]. *)
Lemma only_writes_getPropertyValue_rest fuel l node path :
  (∀ node', only_writes l (getPropertyValue fuel node' (VRef l))) →
  only_writes l
    (len <- get (VRef l) "length" ;;
     if strict_eq len (VNum 1) then
       key <- to_string path ;;
       get node key
     else
       first <- get_index (VRef l) 0 ;;
       key <- to_string first ;;
       property <- get node key ;;
       deeper <-
         (if truthy property then
            len' <- get (VRef l) "length" ;;
            compare Z.gtb len' (VNum 1)
          else ret false) ;;
       if deeper : bool then
         shift (VRef l) ;;;
         getPropertyValue fuel property (VRef l)
       else ret property).
Proof.
  intros IH.
  apply only_writes_bind; [only_reads|]. intros len.
  destruct (strict_eq len (VNum 1)); [only_reads|].
  apply only_writes_bind; [only_reads|]. intros first.
  apply only_writes_bind; [only_reads|]. intros key.
  apply only_writes_bind; [only_reads|]. intros property.
  apply only_writes_bind; [unfold compare; only_reads|]. intros deeper.
  destruct deeper; [|only_reads].
  apply only_writes_bind; [apply only_writes_shift|]. intros _. apply IH.
Qed.

(** With a path that is a reference, [getPropertyValue] writes to the
    path array only. *)
Lemma only_writes_getPropertyValue fuel :
  ∀ l node, only_writes l (getPropertyValue fuel node (VRef l)).
Proof.
  induction fuel as [|fuel IH]; intros l node; cbn [getPropertyValue].
  - only_reads.
  - intros h a h' Hrun. rewrite bind_ret in Hrun. revert h a h' Hrun.
    apply only_writes_getPropertyValue_rest. intros node'. apply IH.
Qed.

(** With a dotted string, [getPropertyValue] leaves every cell of the
    store as it was: it writes to the array it has created only. *)
Lemma getPropertyValue_string_keeps fuel node s h r h' :
  getPropertyValue fuel node (VStr s) h = Ret (r, h') →
  ∀ l c, h !! l = Some c → h' !! l = Some c.
Proof.
  destruct fuel as [|fuel]; [discriminate|]. cbn [getPropertyValue].
  rewrite bind_alloc. intros Hrun l c Hl.
  assert (Hne : l ≠ fresh (dom h)).
  { intros ->. rewrite fresh_unused in Hl. discriminate. }
  rewrite (only_writes_getPropertyValue_rest fuel (fresh (dom h)) node (VStr s)
             (fun node' => only_writes_getPropertyValue fuel _ node')
             _ _ _ Hrun l Hne).
  by rewrite lookup_insert_ne.
Qed.

Lemma closed_intro h :
  (∀ l c v, h !! l = Some c → In v (cell_values c) → valid h v = true) →
  closed h = true.
Proof.
  intros Hall. unfold closed. apply forallb_forall. intros [l c] Hin.
  apply forallb_forall. intros v Hv. apply (Hall l c v); [|exact Hv].
  apply elem_of_map_to_list, list_elem_of_In. exact Hin.
Qed.

Lemma valid_insert h l c v :
  valid h v = true → valid (<[l := c]> h) v = true.
Proof.
  destruct v as [| | | | |l']; try reflexivity. simpl.
  destruct (decide (l = l')) as [->|Hne].
  - by rewrite lookup_insert_eq.
  - by rewrite lookup_insert_ne.
Qed.

(** Adding an array of strings keeps a store closed. *)
Lemma closed_insert_strings h l ks :
  closed h = true → closed (<[l := CArr (map VStr ks)]> h) = true.
Proof.
  intros Hcl. apply closed_intro. intros l' c v Hl' Hv.
  destruct (decide (l = l')) as [->|Hne].
  - rewrite lookup_insert_eq in Hl'. injection Hl' as <-.
    simpl in Hv. apply in_map_iff in Hv as (k & <- & _). reflexivity.
  - rewrite lookup_insert_ne in Hl' by exact Hne.
    apply valid_insert. by apply (closed_cell h l' c).
Qed.

Lemma walk_insert h l c :
  h !! l = None → closed h = true →
  ∀ keys v, valid h v = true → walk (<[l := c]> h) v keys = walk h v keys.
Proof.
  intros Hl Hcl. induction keys as [|k keys IH]; intros v Hv; simpl.
  - by rewrite read_prop_insert.
  - rewrite read_prop_insert by assumption.
    destruct (read_prop h v k) as [p|e] eqn:Hp; [|reflexivity].
    destruct keys as [|k' keys]; [reflexivity|].
    destruct (truthy p); [|reflexivity].
    apply IH. by apply (closed_read h v k).
Qed.

(** A second call with the same dotted string returns the same value. *)
Lemma getPropertyValue_string_again h s node fuel r h' :
  closed h = true → valid h node = true →
  length (split_on "." s) < fuel →
  getPropertyValue fuel node (VStr s) h = Ret (r, h') →
  ∃ h'', getPropertyValue fuel node (VStr s) h' = Ret (r, h'').
Proof.
  intros Hcl Hv Hfuel Hrun.
  rewrite (getPropertyValue_string _ _ _ _ Hcl Hv Hfuel) in Hrun.
  destruct (walk h node (split_on "." s)) as [[r' rest]|e] eqn:Hwalk;
    [|discriminate].
  injection Hrun as -> <-.
  rewrite getPropertyValue_string.
  - rewrite walk_insert, Hwalk; eauto using fresh_unused.
  - by apply closed_insert_strings.
  - by apply valid_insert.
  - exact Hfuel.
Qed.

(** C10, as amended. Every exported helper other than [getPropertyValue]
    is a pure read: it leaves the store as it found it, so a second call
    gives the same result ([getAncestor] provided its predicate only
    reads). [getPropertyValue] called with a dotted string leaves every
    object of the store as it was and, on a closed store, returns the
    same value when called again; called with a pre-split array of names
    it writes to that array only, and leaves it alone when it holds at
    most one name. *)
Theorem exported_helpers_purity :
  (∀ body nodeName, pure_read (findNodes body nodeName))
  ∧ (∀ node, pure_read (getSize node))
  ∧ (∀ fuel node, pure_read (parseCallee fuel node))
  ∧ (∀ node, pure_read (parseArgs node))
  ∧ (∀ arr, pure_read (findUnorderedProperty arr))
  ∧ (∀ node bindings, pure_read (collectObjectPatternBindings node bindings))
  ∧ (∀ node, pure_read (isEmptyMethod node))
  ∧ (∀ fuel node predicate,
       (∀ v, read_only (predicate v)) →
       pure_read (getAncestor fuel node predicate))
  ∧ (∀ fuel node, pure_read (getName fuel node))
  ∧ (∀ fuel node, pure_read (isInLeftSideOfAssignmentExpression fuel node))
  ∧ (∀ fuel node s h r h',
       getPropertyValue fuel node (VStr s) h = Ret (r, h') →
       ∀ l c, h !! l = Some c → h' !! l = Some c)
  ∧ (∀ fuel node s h r h',
       closed h = true → valid h node = true →
       length (split_on "." s) < fuel →
       getPropertyValue fuel node (VStr s) h = Ret (r, h') →
       ∃ h'', getPropertyValue fuel node (VStr s) h' = Ret (r, h''))
  ∧ (∀ fuel node l, only_writes l (getPropertyValue fuel node (VRef l)))
  ∧ (∀ fuel node l parts h r h',
       closed h = true → valid h node = true → h !! l = None →
       length parts ≤ 1 → length parts < fuel →
       getPropertyValue fuel node (VRef l) (<[l := CArr (map VStr parts)]> h)
         = Ret (r, h') →
       h' = <[l := CArr (map VStr parts)]> h).
Proof.
  repeat apply conj.
  - intros. apply read_only_pure, read_only_findNodes.
  - intros. apply read_only_pure, read_only_getSize.
  - intros. apply read_only_pure, read_only_parseCallee.
  - intros. apply read_only_pure, read_only_parseArgs.
  - intros. apply read_only_pure, read_only_findUnorderedProperty.
  - intros. apply read_only_pure, read_only_collectObjectPatternBindings.
  - intros. apply read_only_pure, read_only_isEmptyMethod.
  - intros. by apply read_only_pure, read_only_getAncestor.
  - intros. apply read_only_pure, read_only_getName.
  - intros. apply read_only_pure, read_only_isInLeftSideOfAssignmentExpression.
  - intros fuel node s h r h' Hrun.
    exact (getPropertyValue_string_keeps _ _ _ _ _ _ Hrun).
  - intros fuel node s h r h' Hcl Hv Hfuel Hrun.
    exact (getPropertyValue_string_again _ _ _ _ _ _ Hcl Hv Hfuel Hrun).
  - intros fuel node l. apply only_writes_getPropertyValue.
  - intros fuel node l parts h r h' Hcl Hv Hl Hlen Hfuel Hrun.
    rewrite (getPropertyValue_parts h l Hl Hcl parts node fuel Hv Hfuel)
      in Hrun.
    destruct parts as [|k [|k' parts]]; simpl in *; [| |lia].
    + destruct (read_prop h node "undefined"); by inversion Hrun.
    + destruct (read_prop h node k); by inversion Hrun.
Qed.

Lemma exported_helpers_purity_witness :
  (store_args = store_args
   ∧ parseArgs (VRef 1) store_args = Ret ([VStr "x"; VStr "y"], store_args))
  ∧ (∃ h'', getPropertyValue 3 (VRef 2) (VStr "key.name")
              (<[6 := CArr [VStr "name"]]> store_path)
            = Ret (VStr "foo", h'')).
Proof.
  destruct exported_helpers_purity
    as (_ & _ & _ & Hargs & _ & _ & _ & _ & _ & _ & _ & Hagain & _).
  split.
  - apply (Hargs (VRef 1) store_args). vm_compute. reflexivity.
  - apply (Hagain 3 (VRef 2) "key.name" store_path).
    + vm_compute. reflexivity.
    + vm_compute. reflexivity.
    + vm_compute. lia.
    + vm_compute. reflexivity.
Defined.

(** C10, as stated, fails for [getPropertyValue] with a pre-split path:
    the call on the property node 2 of [store_path] with the array
    [['key', 'name']] (node 5) returns ['foo'] and removes ['key'] from
    the caller's array, so that the same call made again reads
    [node.name] and returns [undefined]. *)
Lemma getPropertyValue_consumes_path :
  getPropertyValue 3 (VRef 2) (VRef 5) store_path
    = Ret (VStr "foo", <[5 := CArr [VStr "name"]]> store_path)
  ∧ getPropertyValue 3 (VRef 2) (VRef 5) (<[5 := CArr [VStr "name"]]> store_path)
      = Ret (VUndefined, <[5 := CArr [VStr "name"]]> store_path)
  ∧ ¬ (∀ fuel node path, pure_read (getPropertyValue fuel node path)).
Proof.
  assert (Hrun : getPropertyValue 3 (VRef 2) (VRef 5) store_path
                 = Ret (VStr "foo", <[5 := CArr [VStr "name"]]> store_path))
    by (vm_compute; reflexivity).
  split; [exact Hrun|]. split; [vm_compute; reflexivity|].
  intros Hpure. destruct (Hpure _ _ _ _ _ _ Hrun) as [Hsame _].
  apply (f_equal (fun h => h !! 5)) in Hsame. vm_compute in Hsame.
  discriminate.
Qed.

(** ** Behaviour on partial trees *)











(** The method without a body answers [undefined], the empty method
    [true]. *)
Example isEmptyMethod_methods :
  isEmptyMethod (VRef 1) store_methods = Ret (VUndefined, store_methods)
  ∧ isEmptyMethod (VRef 3) store_methods = Ret (VBool true, store_methods).
Proof. split; vm_compute; reflexivity. Qed.

(** A node from line 10 to line 12 has size 3; without location
    information [getSize] throws. *)
Example getSize_lines :
  getSize (VRef 1) store_lines = Ret (VNum 3, store_lines)
  ∧ getSize (VRef 3) store_lines = Err TypeError.
Proof. split; vm_compute; reflexivity. Qed.

(** * Further properties of the helpers *)

Lemma nullish_read h v key :
  nullish v = false → read_prop h v key = Ret (prop_of h v key).
Proof.
  intros Hv. unfold prop_of.
  destruct (read_prop h v key) as [x|e] eqn:E; [reflexivity|].
  destruct v as [| | | | |l]; try discriminate.
  simpl in E. destruct (h !! l) as [[fs|es]|]; discriminate.
Qed.

Lemma nullish_throws h v key :
  nullish v = true → read_prop h v key = Err TypeError.
Proof. destruct v; try discriminate; reflexivity. Qed.

Lemma read_array_truthy h v es : read_array h v = Ret es → truthy v = true.
Proof. destruct v; try discriminate. reflexivity. Qed.

Lemma read_array_error h v e : read_array h v = Err e → e = TypeError.
Proof.
  destruct v as [| | | | |l]; simpl; try (by intros [= <-]).
  destruct (h !! l) as [[fs|es]|]; try discriminate; by intros [= <-].
Qed.

(** ** findNodes *)

(** A callback that throws on the elements satisfying [bad] makes
    [filter] throw as soon as the array holds such an element. *)
Lemma array_filter_throws (p : value → M value) (bad : value → bool) h es :
  (∀ e, bad e = true → p e h = Err TypeError) →
  (∀ e, bad e = false → ∃ r, p e h = Ret (r, h)) →
  existsb bad es = true →
  array_filter p es h = Err TypeError.
Proof.
  intros Hbad Hgood. induction es as [|e es IH]; [discriminate|].
  simpl. intros Hex. unfold bind at 1.
  destruct (bad e) eqn:He.
  - by rewrite (Hbad e He).
  - destruct (Hgood e He) as [r ->]. simpl in Hex.
    unfold bind. by rewrite (IH Hex).
Qed.

(** X1. On an array without [null] or [undefined] elements, [findNodes]
    returns the elements whose [type] is strictly equal to [nodeName], in
    their order in the array, and leaves the store as it was. *)
Theorem findNodes_selects (h : store) (body nodeName : value)
    (nodes : list value) :
  read_array h body = Ret nodes →
  existsb nullish nodes = false →
  findNodes body nodeName h =
    Ret (List.filter (fun node => strict_eq (prop_of h node "type") nodeName)
           nodes, h).
Proof.
  intros Hbody Hnodes. unfold findNodes.
  rewrite (read_array_truthy _ _ _ Hbody), bind_as_array, Hbody.
  rewrite (array_filter_reads _
             (fun node => VBool (strict_eq (prop_of h node "type") nodeName)));
    [reflexivity|].
  intros node Hin. mstep. rewrite nullish_read; [reflexivity|].
  destruct (nullish node) eqn:Hn; [|reflexivity].
  assert (Hex : existsb nullish nodes = true)
    by (apply existsb_exists; eauto).
  congruence.
Qed.

Lemma findNodes_selects_witness :
  findNodes (VRef 3) (VStr "Literal") store_args
    = Ret ([VRef 4; VRef 5; VRef 6; VRef 7], store_args)
  ∧ findNodes (VRef 3) (VStr "Identifier") store_args = Ret ([], store_args).
Proof.
  split.
  - apply (findNodes_selects store_args (VRef 3) (VStr "Literal")
             [VRef 4; VRef 5; VRef 6; VRef 7]); vm_compute; reflexivity.
  - apply (findNodes_selects store_args (VRef 3) (VStr "Identifier")
             [VRef 4; VRef 5; VRef 6; VRef 7]); vm_compute; reflexivity.
Defined.

(** X2. [findNodes] throws when [body] is truthy and not an array, and
    when it is an array that holds [null] or [undefined]: the callback
    reads [node.type] of every element. *)
Theorem findNodes_throws (h : store) (body nodeName : value) :
  truthy body = true →
  (∀ nodes, read_array h body = Ret nodes → existsb nullish nodes = true) →
  findNodes body nodeName h = Err TypeError.
Proof.
  intros Hbody Hbad. unfold findNodes. rewrite Hbody, bind_as_array.
  destruct (read_array h body) as [nodes|e] eqn:Harr.
  - apply (array_filter_throws _ nullish); [| |by apply Hbad].
    + intros e He. mstep. by rewrite (nullish_throws _ _ _ He).
    + intros e He. mstep. rewrite (nullish_read _ _ _ He). eauto.
  - by apply read_array_error in Harr as ->.
Qed.

Lemma findNodes_throws_witness :
  findNodes (VRef 2) (VStr "Identifier") store_sparse = Err TypeError
  ∧ findNodes (VRef 1) (VStr "Identifier") store_sparse = Err TypeError.
Proof.
  split.
  - apply (findNodes_throws store_sparse (VRef 2)); [reflexivity|].
    intros nodes Hnodes. vm_compute in Hnodes. injection Hnodes as <-.
    reflexivity.
  - apply (findNodes_throws store_sparse (VRef 1)); [reflexivity|].
    intros nodes Hnodes. vm_compute in Hnodes. discriminate.
Defined.

(** ** getSize *)

(** X3. For a node with location information whose lines are [first] and
    [last], [getSize] returns [last - first + 1], which is at least 1 when
    the node does not end before it starts; without [node.loc] it
    throws. *)
Theorem getSize_span (h : store) (node : value) :
  let loc := prop_of h node "loc" in
  (∀ first last,
     truthy loc = true →
     truthy (prop_of h loc "start") = true →
     truthy (prop_of h loc "end") = true →
     prop_of h (prop_of h loc "start") "line" = VNum first →
     prop_of h (prop_of h loc "end") "line" = VNum last →
     (0 ≤ first ≤ last)%Z → (last < 9007199254740991)%Z →
     getSize node h = Ret (VNum (last - first + 1), h)
     ∧ (1 ≤ last - first + 1)%Z)
  ∧ (nullish loc = true → getSize node h = Err TypeError).
Proof.
  intros loc. split.
  - intros first last Hloc Hstart Hend Hfirst Hlast Horder Hsafe.
    split; [|lia].
    assert (Hnode : read_prop h node "loc" = Ret loc).
    { unfold loc, prop_of in *.
      destruct (read_prop h node "loc"); [reflexivity|discriminate]. }
    unfold getSize. mstep. rewrite Hnode. mstep.
    rewrite (truthy_read _ _ _ Hloc). mstep.
    rewrite (truthy_read _ _ _ Hend), Hlast. mstep.
    rewrite Hnode. mstep.
    rewrite (truthy_read _ _ _ Hloc). mstep.
    rewrite (truthy_read _ _ _ Hstart), Hfirst.
    unfold bind, arith, safe_integer.
    assert (H1 : (Z.abs last <=? 9007199254740991)%Z = true)
      by (apply Z.leb_le; lia).
    assert (H2 : (Z.abs first <=? 9007199254740991)%Z = true)
      by (apply Z.leb_le; lia).
    assert (H3 : (Z.abs (last - first) <=? 9007199254740991)%Z = true)
      by (apply Z.leb_le; lia).
    assert (H4 : (Z.abs (last - first + 1) <=? 9007199254740991)%Z = true)
      by (apply Z.leb_le; lia).
    assert (H5 : (Z.abs 1 <=? 9007199254740991)%Z = true) by reflexivity.
    rewrite H1, H2, H3. cbn [andb ret]. rewrite H3, H5, H4. reflexivity.
  - intros Hloc. unfold getSize. mstep.
    destruct (read_prop h node "loc") as [l|e] eqn:Hnode.
    + assert (l = loc) by (unfold loc, prop_of; by rewrite Hnode). subst l.
      mstep. by rewrite (nullish_throws _ _ _ Hloc).
    + destruct node as [| | | | |l]; simpl in Hnode; try discriminate;
        try (by injection Hnode as <-).
      destruct (h !! l) as [[fs|es]|]; discriminate.
Qed.

Lemma getSize_span_witness :
  (getSize (VRef 1) store_lines = Ret (VNum (12 - 10 + 1), store_lines)
   ∧ (1 ≤ 12 - 10 + 1)%Z)
  ∧ getSize (VRef 3) store_lines = Err TypeError.
Proof.
  split.
  - apply (proj1 (getSize_span store_lines (VRef 1)) 10%Z 12%Z);
      first [vm_compute; reflexivity | lia].
  - apply (proj2 (getSize_span store_lines (VRef 3))). reflexivity.
Defined.

(** ** getAncestor *)

Lemma ofType_decides tag h : decides (ofType tag) (type_is h tag) h.
Proof.
  intros v Hv. unfold ofType, type_is. mstep.
  rewrite (truthy_read _ _ _ Hv). eauto.
Qed.

Lemma read_only_ofType tag v : read_only (ofType tag v).
Proof. unfold ofType. read_only_solve. Qed.

(** One round of the loop on a node that is present. *)
Lemma getAncestor_round predicate q h node fuel :
  decides predicate q h → truthy node = true →
  getAncestor (S fuel) node predicate h =
  if q node then Ret (node, h)
  else getAncestor fuel (prop_of h node "parent") predicate h.
Proof.
  intros Hdec Hnode. simpl. rewrite Hnode.
  destruct (Hdec node Hnode) as (r & Hrun & Hr).
  unfold bind at 1. rewrite Hrun, Hr.
  destruct (q node); [reflexivity|].
  mstep. by rewrite (truthy_read _ _ _ Hnode).
Qed.

(** X4. With a predicate that only reads, [getAncestor] returns the
    nearest node on the chain of parents, the start included, for which
    the predicate holds: it holds for no node before it. When it holds
    for no node of the chain the result is [null]. *)
Theorem getAncestor_nearest (h : store) (predicate : value → M value)
    (q : value → bool) :
  decides predicate q h →
  ∀ (d : nat) node (fuel : nat),
    truthy (nth_parent h node d) = false → d < fuel →
    (∃ k, getAncestor fuel node predicate h = Ret (nth_parent h node k, h)
          ∧ truthy (nth_parent h node k) = true
          ∧ q (nth_parent h node k) = true
          ∧ ∀ j, j < k → q (nth_parent h node j) = false)
    ∨ (getAncestor fuel node predicate h = Ret (VNull, h)
       ∧ ∀ k, truthy (nth_parent h node k) = true →
              q (nth_parent h node k) = false).
Proof.
  intros Hdec. induction d as [|d IH]; intros node fuel Hend Hfuel;
    (destruct fuel as [|fuel]; [lia|]); simpl in Hend.
  - right. simpl. rewrite Hend. split; [reflexivity|].
    intros k Hk. by rewrite nth_parent_falsy in Hk.
  - destruct (truthy node) eqn:Hnode.
    + rewrite (getAncestor_round _ _ _ _ _ Hdec Hnode).
      destruct (q node) eqn:Hq.
      * left. exists 0. simpl. repeat split; auto. intros j Hj. lia.
      * destruct (IH (prop_of h node "parent") fuel Hend) as
          [(k & Hk & Hkt & Hkq & Hmin)|[Hnull Hnone]]; [lia| |].
        -- left. exists (S k). simpl. repeat split; auto.
           intros [|j] Hj; simpl; [exact Hq|]. apply Hmin. lia.
        -- right. split; [exact Hnull|].
           intros [|k] Hk; simpl in *; [exact Hq|by apply Hnone].
    + right. simpl. rewrite Hnode. split; [reflexivity|].
      intros k Hk. by rewrite nth_parent_falsy in Hk.
Qed.

Lemma getAncestor_nearest_witness :
  (∃ k, getAncestor 7 (VRef 7) (ofType "AssignmentExpression") store_assign
          = Ret (nth_parent store_assign (VRef 7) k, store_assign)
        ∧ truthy (nth_parent store_assign (VRef 7) k) = true
        ∧ type_is store_assign "AssignmentExpression"
            (nth_parent store_assign (VRef 7) k) = true
        ∧ ∀ j, j < k →
               type_is store_assign "AssignmentExpression"
                 (nth_parent store_assign (VRef 7) j) = false)
  ∨ (getAncestor 7 (VRef 7) (ofType "AssignmentExpression") store_assign
       = Ret (VNull, store_assign)
     ∧ ∀ k, truthy (nth_parent store_assign (VRef 7) k) = true →
            type_is store_assign "AssignmentExpression"
              (nth_parent store_assign (VRef 7) k) = false).
Proof.
  apply (getAncestor_nearest store_assign (ofType "AssignmentExpression")
           (type_is store_assign "AssignmentExpression")
           (ofType_decides _ _) 6 (VRef 7) 7).
  - vm_compute. reflexivity.
  - lia.
Defined.

(** From [x] in [this.x.y = 1] the nearest assignment is node 3, and no
    ancestor is a call. *)
Example getAncestor_assignment :
  getAncestor 7 (VRef 7) (ofType "AssignmentExpression") store_assign
    = Ret (VRef 3, store_assign)
  ∧ getAncestor 7 (VRef 7) (ofType "CallExpression") store_assign
      = Ret (VNull, store_assign).
Proof. split; vm_compute; reflexivity. Qed.

(** X5. [getAncestor] applied to its own result returns that result
    again: the node found satisfies the predicate, and [null] has no
    ancestors. *)
Theorem getAncestor_idempotent (predicate : value → M value)
    (fuel fuel' : nat) (node found : value) (h h' : store) :
  (∀ v, read_only (predicate v)) →
  getAncestor fuel node predicate h = Ret (found, h') →
  getAncestor (S fuel') found predicate h' = Ret (found, h').
Proof.
  intros Hread. revert node h.
  induction fuel as [|fuel IH]; intros node h; simpl; [discriminate|].
  destruct (truthy node) eqn:Hnode.
  - unfold bind at 1.
    destruct (predicate node h) as [[r h1]|e] eqn:Hrun; [|discriminate].
    pose proof (Hread _ _ _ _ Hrun) as ->.
    destruct (truthy r) eqn:Hr.
    + intros [= <- <-]. rewrite Hnode. unfold bind. by rewrite Hrun, Hr.
    + mstep. destruct (read_prop h node "parent") as [p|e]; [|discriminate].
      apply IH.
  - by intros [= <- <-].
Qed.

Lemma getAncestor_idempotent_witness :
  getAncestor 1 (VRef 3) (ofType "AssignmentExpression") store_assign
    = Ret (VRef 3, store_assign).
Proof.
  apply (getAncestor_idempotent (ofType "AssignmentExpression") 7 0
           (VRef 7) (VRef 3) store_assign store_assign).
  - intros v. apply read_only_ofType.
  - vm_compute. reflexivity.
Defined.

(** ** isInLeftSideOfAssignmentExpression *)

Lemma onLeftOfAssignment_decides h : decides onLeftOfAssignment (on_left h) h.
Proof. intros v Hv. by apply onLeftOfAssignment_reads. Qed.

(** The answer for a node that is present: [true] for a left operand,
    and otherwise the answer for its parent. *)
Lemma isInLeftSideOfAssignmentExpression_round h node fuel :
  truthy node = true →
  isInLeftSideOfAssignmentExpression (S fuel) node h =
  if on_left h node then Ret (true, h)
  else isInLeftSideOfAssignmentExpression fuel (prop_of h node "parent") h.
Proof.
  intros Hnode. unfold isInLeftSideOfAssignmentExpression, bind.
  rewrite (getAncestor_round _ _ _ _ _ (onLeftOfAssignment_decides h) Hnode).
  destruct (on_left h node); [|reflexivity].
  unfold ret. by rewrite Hnode.
Qed.

Lemma isInLeftSideOfAssignmentExpression_absent h node fuel answer :
  truthy node = false →
  isInLeftSideOfAssignmentExpression fuel node h = Ret (answer, h) →
  answer = false.
Proof.
  intros Hnode. unfold isInLeftSideOfAssignmentExpression, bind.
  destruct fuel as [|fuel]; simpl; [discriminate|].
  rewrite Hnode. unfold ret. by intros [= <-].
Qed.

(** X6. Being inside the left side is inherited downwards: if some
    ancestor of a node, [k] parents up, is inside the left side of an
    assignment, so is the node. *)
Theorem isInLeftSideOfAssignmentExpression_inherited (h : store) (k : nat) :
  ∀ node (fuel : nat),
    isInLeftSideOfAssignmentExpression fuel (nth_parent h node k) h
      = Ret (true, h) →
    isInLeftSideOfAssignmentExpression (k + fuel) node h = Ret (true, h).
Proof.
  induction k as [|k IH]; intros node fuel Hup; [exact Hup|].
  simpl in Hup. apply IH in Hup.
  destruct (truthy node) eqn:Hnode.
  - change (S k + fuel) with (S (k + fuel)).
    rewrite (isInLeftSideOfAssignmentExpression_round _ _ _ Hnode).
    by destruct (on_left h node).
  - assert (Hp : prop_of h node "parent" = VUndefined).
    { unfold prop_of. destruct node; try reflexivity; discriminate. }
    rewrite Hp in Hup.
    by apply isInLeftSideOfAssignmentExpression_absent in Hup.
Qed.

Lemma isInLeftSideOfAssignmentExpression_inherited_witness :
  isInLeftSideOfAssignmentExpression (2 + 1) (VRef 6) store_assign
    = Ret (true, store_assign).
Proof.
  apply (isInLeftSideOfAssignmentExpression_inherited store_assign 2
           (VRef 6) 1).
  vm_compute. reflexivity.
Defined.

(** X7. A node that is not itself a left operand has the answer of its
    parent; so the nodes of the right side of an assignment are inside a
    left side only when the assignment itself is. *)
Theorem isInLeftSideOfAssignmentExpression_skips (h : store) (k : nat) :
  ∀ node (fuel : nat),
    (∀ j, j < k → truthy (nth_parent h node j) = true
                  ∧ on_left h (nth_parent h node j) = false) →
    isInLeftSideOfAssignmentExpression (k + fuel) node h =
    isInLeftSideOfAssignmentExpression fuel (nth_parent h node k) h.
Proof.
  induction k as [|k IH]; intros node fuel Hnot; [reflexivity|].
  destruct (Hnot 0) as [Hnode Hleft]; [lia|]. simpl in Hnode, Hleft.
  change (S k + fuel) with (S (k + fuel)).
  rewrite (isInLeftSideOfAssignmentExpression_round _ _ _ Hnode), Hleft.
  simpl. apply IH. intros j Hj. apply (Hnot (S j)). lia.
Qed.

Lemma isInLeftSideOfAssignmentExpression_skips_witness :
  isInLeftSideOfAssignmentExpression (1 + 4) (VRef 9) store_assign =
  isInLeftSideOfAssignmentExpression 4 (VRef 3) store_assign.
Proof.
  apply (isInLeftSideOfAssignmentExpression_skips store_assign 1 (VRef 9) 4).
  intros j Hj. assert (j = 0) as -> by lia. split; vm_compute; reflexivity.
Defined.

(** ** isEmptyMethod *)

(** X8. For a method whose function has a block body, [isEmptyMethod]
    answers whether the block has no statements; for a node without
    [value] it throws. *)
Theorem isEmptyMethod_block (h : store) (node : value) :
  let value := prop_of h node "value" in
  let body := prop_of h value "body" in
  (∀ statements,
     truthy value = true → truthy body = true →
     read_array h (prop_of h body "body") = Ret statements →
     isEmptyMethod node h = Ret (VBool (bool_decide (statements = [])), h))
  ∧ (nullish value = true → isEmptyMethod node h = Err TypeError).
Proof.
  intros value body. split.
  - intros statements Hvalue Hbody Hstmts.
    assert (Hnode : read_prop h node "value" = Ret value).
    { unfold value, prop_of in *.
      destruct (read_prop h node "value"); [reflexivity|discriminate]. }
    assert (Hb : read_prop h value "body" = Ret body)
      by apply (truthy_read _ _ _ Hvalue).
    assert (Hs : read_prop h body "body" = Ret (prop_of h body "body"))
      by apply (truthy_read _ _ _ Hbody).
    unfold isEmptyMethod. mstep. rewrite Hnode. mstep. rewrite Hb, Hbody.
    cbn [negb]. mstep. rewrite Hnode. mstep. rewrite Hb. mstep. rewrite Hs.
    rewrite (read_array_truthy _ _ _ Hstmts). cbn [negb]. mstep.
    rewrite Hnode. mstep. rewrite Hb. mstep. rewrite Hs. mstep.
    rewrite (read_array_length _ _ _ Hstmts). unfold bind, compare, ret.
    do 3 f_equal. destruct statements; reflexivity.
  - intros Hvalue. unfold isEmptyMethod. mstep.
    destruct (read_prop h node "value") as [v|e] eqn:Hnode.
    + assert (v = value) by (unfold value, prop_of; by rewrite Hnode).
      subst v. mstep. by rewrite (nullish_throws _ _ _ Hvalue).
    + destruct node as [| | | | |l]; simpl in Hnode; try discriminate;
        try (by injection Hnode as <-).
      destruct (h !! l) as [[fs|es]|]; discriminate.
Qed.

Lemma isEmptyMethod_block_witness :
  isEmptyMethod (VRef 3) store_methods
    = Ret (VBool (bool_decide (@nil value = [])), store_methods)
  ∧ isEmptyMethod (VRef 5) store_methods = Err TypeError.
Proof.
  split.
  - apply (proj1 (isEmptyMethod_block store_methods (VRef 3)) []);
      vm_compute; reflexivity.
  - apply (proj2 (isEmptyMethod_block store_methods (VRef 5))). reflexivity.
Defined.

(** ** parseCallee on callees without a root identifier *)

Lemma parseCallee_loop_open h accesses :
  ∀ v acc (fuel : nat),
    is_open_chain h v accesses = true → length accesses < fuel →
    ∃ stop,
      parseCallee_loop fuel v acc h
        = Ret ((stop, acc ++ map VStr (omap id accesses)), h)
      ∧ has_type h stop "Identifier" = false.
Proof.
  induction accesses as [|[n|] rest IH]; intros v acc fuel Hc Hfuel;
    (destruct fuel as [|fuel]; [simpl in Hfuel; lia|]);
    simpl in Hc, Hfuel |- *.
  - apply andb_true_iff in Hc as [Hmem%negb_true_iff Hid%negb_true_iff].
    exists v. unfold_types. mstep. rewrite Hmem. mstep.
    rewrite app_nil_r. auto.
  - apply andb_true_iff in Hc as [Hc Hrest].
    apply andb_true_iff in Hc as [Hc Hname%strict_eq_true].
    apply andb_true_iff in Hc as [Hmem Hid].
    destruct (IH (prop_of h v "object") (acc ++ [VStr n]) fuel Hrest)
      as (stop & Hrun & Hstop); [lia|].
    exists stop. split; [|exact Hstop].
    unfold_types. mstep. rewrite Hmem. mstep.
    rewrite (has_type_read _ _ _ "property" Hmem). mstep. rewrite Hid. mstep.
    rewrite (has_type_read _ _ _ "name" Hid), Hname. mstep.
    rewrite (has_type_read _ _ _ "object" Hmem). mstep.
    rewrite Hrun. by rewrite <- app_assoc.
  - apply andb_true_iff in Hc as [Hc Hrest].
    apply andb_true_iff in Hc as [Hmem Hid%negb_true_iff].
    destruct (IH (prop_of h v "object") acc fuel Hrest)
      as (stop & Hrun & Hstop); [lia|].
    exists stop. split; [|exact Hstop].
    unfold_types. mstep. rewrite Hmem. mstep.
    rewrite (has_type_read _ _ _ "property" Hmem). mstep. rewrite Hid. mstep.
    rewrite (has_type_read _ _ _ "object" Hmem). mstep.
    by rewrite Hrun.
Qed.

(** X9. When the callee's chain of member accesses ends in a node that is
    not an identifier (as in [this.x.y()] or [f().g()]), [parseCallee]
    returns the recorded property names alone, from the root to the
    leaf: nothing stands for the root. *)
Theorem parseCallee_open_chain (h : store) (node : value)
    (accesses : list (option string)) (fuel : nat) :
  is_call h node = true →
  is_open_chain h (prop_of h node "callee") accesses = true →
  length accesses < fuel →
  parseCallee fuel node h = Ret (map VStr (rev (omap id accesses)), h).
Proof.
  intros Hcall Hc Hfuel.
  destruct (parseCallee_loop_open h accesses _ [] fuel Hc Hfuel)
    as (stop & Hrun & Hstop).
  rewrite (parseCallee_call _ _ _ Hcall), Hrun, Hstop.
  simpl. by rewrite map_rev.
Qed.

Lemma parseCallee_open_chain_witness :
  parseCallee 3 (VRef 1) store_this_call
    = Ret ([VStr "x"; VStr "y"], store_this_call).
Proof.
  apply (parseCallee_open_chain store_this_call (VRef 1)
           [Some "y"; Some "x"] 3); first [vm_compute; reflexivity | simpl; lia].
Defined.

(** ** parseArgs *)

(** What [filter] keeps, for a callback that only reads. *)
Lemma array_filter_kept (p : value → M value) es :
  (∀ e, read_only (p e)) →
  ∀ h kept h',
    array_filter p es h = Ret (kept, h') →
    h' = h
    ∧ length kept ≤ length es
    ∧ ∀ a, In a kept → ∃ r, p a h = Ret (r, h) ∧ truthy r = true.
Proof.
  intros Hread. induction es as [|e es IH]; intros h kept h'; simpl.
  - intros [= <- <-]. split; [reflexivity|]. split; [simpl; lia|].
    intros a [].
  - unfold bind at 1.
    destruct (p e h) as [[r h1]|err] eqn:Hrun; [|discriminate].
    pose proof (Hread _ _ _ _ Hrun) as ->.
    unfold bind at 1.
    destruct (array_filter p es h) as [[rest h2]|err] eqn:Hrest;
      [|discriminate].
    destruct (IH _ _ _ Hrest) as (-> & Hlen & Hkept).
    unfold ret. intros [= <- <-]. split; [reflexivity|].
    destruct (truthy r) eqn:Hr; simpl.
    + split; [lia|]. intros a [<-|Hin]; eauto.
    + split; [lia|]. auto.
Qed.

(** X10. Whatever the call looks like, the values [parseArgs] returns are
    all truthy, and there are never more of them than arguments. *)
Theorem parseArgs_truthy (h h' : store) (node : value) (values : list value) :
  parseArgs node h = Ret (values, h') →
  Forall (fun v => truthy v = true) values
  ∧ ∀ args, read_array h (prop_of h node "arguments") = Ret args →
            length values ≤ length args.
Proof.
  unfold parseArgs. unfold_types. mstep.
  destruct (has_type h node "CallExpression") eqn:Hcall; mstep.
  - rewrite (has_type_read _ _ _ "arguments" Hcall). mstep.
    rewrite bind_as_array.
    destruct (read_array h (prop_of h node "arguments")) as [args|e];
      [|discriminate].
    unfold bind at 1.
    destruct (array_filter _ args h) as [[kept h1]|e] eqn:Hfilter;
      [|discriminate].
    apply array_filter_kept in Hfilter as (-> & Hlen & Hkept);
      [|intros e; read_only_solve].
    assert (Hvalue : ∀ a, In a kept →
              has_type h a "Literal" = true
              ∧ truthy (prop_of h a "value") = true).
    { intros a Ha. destruct (Hkept a Ha) as (r & Hrun & Hr).
      revert Hrun. mstep.
      destruct (has_type h a "Literal") eqn:Hlit.
      - rewrite get_run, (has_type_read _ _ _ "value" Hlit).
        intros [= <-]. auto.
      - unfold ret. intros [= <-]. discriminate. }
    rewrite (array_map_reads _ (fun a => prop_of h a "value")).
    + intros [= <- <-]. split.
      * apply Forall_forall. intros v Hv.
        apply list_elem_of_In, in_map_iff in Hv as (a & <- & Ha).
        by apply Hvalue.
      * intros args' [= <-]. by rewrite length_map.
    + intros a Ha. destruct (Hvalue a Ha) as [Hlit _].
      by rewrite get_run, (has_type_read _ _ _ "value" Hlit).
  - unfold ret. intros [= <- <-]. split; [constructor|].
    intros args _. simpl. lia.
Qed.

Lemma parseArgs_truthy_witness :
  parseArgs (VRef 1) store_args = Ret ([VStr "x"; VStr "y"], store_args)
  ∧ Forall (fun v => truthy v = true) [VStr "x"; VStr "y"]
  ∧ ∀ args, read_array store_args (prop_of store_args (VRef 1) "arguments")
              = Ret args →
            length [VStr "x"; VStr "y"] ≤ length args.
Proof.
  assert (Hrun : parseArgs (VRef 1) store_args
                 = Ret ([VStr "x"; VStr "y"], store_args))
    by (vm_compute; reflexivity).
  split; [exact Hrun|].
  exact (parseArgs_truthy store_args store_args (VRef 1) _ Hrun).
Defined.

(** X11. On a CallExpression whose [arguments] is not an array,
    [parseArgs] throws. *)
Theorem parseArgs_throws (h : store) (node : value) :
  has_type h node "CallExpression" = true →
  (∀ args, read_array h (prop_of h node "arguments") ≠ Ret args) →
  parseArgs node h = Err TypeError.
Proof.
  intros Hcall Hargs. unfold parseArgs. unfold_types. mstep.
  rewrite Hcall. mstep. rewrite (has_type_read _ _ _ "arguments" Hcall).
  mstep. rewrite bind_as_array.
  destruct (read_array h (prop_of h node "arguments")) as [args|e] eqn:Harr.
  - by destruct (Hargs args).
  - by apply read_array_error in Harr as ->.
Qed.

Lemma parseArgs_throws_witness :
  parseArgs (VRef 1) store_bare_call = Err TypeError.
Proof.
  apply (parseArgs_throws store_bare_call (VRef 1)).
  - vm_compute. reflexivity.
  - intros args Hargs. vm_compute in Hargs. discriminate.
Defined.

(** ** findUnorderedProperty on short arrays and missing orders *)

(** X12. An array with at most one element has no pair to compare:
    [findUnorderedProperty] returns [null] without looking at the
    element. *)
Theorem findUnorderedProperty_short (h : store) (arr : value)
    (es : list value) :
  read_array h arr = Ret es → length es ≤ 1 →
  findUnorderedProperty arr h = Ret (VNull, h).
Proof.
  intros Harr Hlen. unfold findUnorderedProperty. mstep.
  rewrite (read_array_length _ _ _ Harr).
  replace (Z.to_nat (Z.of_nat (length es) - 1)) with 0 by lia.
  reflexivity.
Qed.

Lemma findUnorderedProperty_short_witness :
  findUnorderedProperty (VRef 7) store_methods = Ret (VNull, store_methods)
  ∧ findUnorderedProperty (VRef 7) store_alias = Ret (VNull, store_alias).
Proof.
  split.
  - apply (findUnorderedProperty_short store_methods (VRef 7) []);
      [vm_compute; reflexivity | simpl; lia].
  - apply (findUnorderedProperty_short store_alias (VRef 7) [VRef 8]);
      [vm_compute; reflexivity | simpl; lia].
Defined.

Lemma compare_unreported h a b :
  unreported h a b = true →
  compare Z.gtb (prop_of h a "order") (prop_of h b "order") h
    = Ret (false, h).
Proof.
  unfold unreported, compare.
  destruct (prop_of h a "order") as [| | |x| |], (prop_of h b "order")
    as [| | |y| |]; try discriminate; try reflexivity.
  intros Hle. unfold ret. do 2 f_equal. apply Z.leb_le in Hle.
  rewrite Z.gtb_ltb. apply Z.ltb_ge. exact Hle.
Qed.

(** The loop over the part [suf] of the array that is still to be
    scanned. *)
Lemma findUnorderedProperty_loop_unreported h arr es :
  read_array h arr = Ret es →
  forallb truthy es = true →
  ∀ suf pre,
    es = pre ++ suf → all_unreported h suf = true →
    findUnorderedProperty_loop (length suf - 1) (length pre) arr h
      = Ret (VNull, h).
Proof.
  intros Harr Hes. rewrite forallb_forall in Hes.
  induction suf as [|a suf IH]; intros pre Heq Hok; [reflexivity|].
  destruct suf as [|b rest]; [reflexivity|].
  simpl in Hok. apply andb_true_iff in Hok as [Hab Hrest].
  assert (Ha : elem_at es (length pre) = a).
  { subst es. unfold elem_at. apply nth_middle. }
  assert (Hb : elem_at es (length pre + 1) = b).
  { subst es. unfold elem_at.
    change (pre ++ a :: b :: rest) with (pre ++ [a] ++ b :: rest).
    rewrite app_assoc.
    replace (length pre + 1) with (length (pre ++ [a]))
      by (rewrite length_app; reflexivity).
    apply nth_middle. }
  assert (Hat : truthy a = true).
  { apply Hes. subst es. apply in_or_app. right. by left. }
  assert (Hbt : truthy b = true).
  { apply Hes. subst es. apply in_or_app. right. right. by left. }
  replace (length (a :: b :: rest) - 1) with (S (length (b :: rest) - 1))
    by (simpl; lia).
  cbn [findUnorderedProperty_loop].
  rewrite bind_get_index, (read_array_index _ _ _ _ Harr), Ha. mstep.
  rewrite (truthy_read _ _ _ Hat).
  rewrite bind_get_index, (read_array_index _ _ _ _ Harr), Hb. mstep.
  rewrite (truthy_read _ _ _ Hbt).
  unfold bind at 1. rewrite (compare_unreported _ _ _ Hab).
  replace (S (length pre)) with (length (pre ++ [a]))
    by (rewrite length_app; simpl; lia).
  apply IH; [|exact Hrest].
  subst es. by rewrite <- app_assoc.
Qed.

(** X13. A record without an [order] is never reported and hides its
    neighbour: when every pair of neighbours is in order or has an order
    missing, [findUnorderedProperty] returns [null], even if the orders
    that are present decrease. *)
Theorem findUnorderedProperty_unreported (h : store) (arr : value)
    (es : list value) :
  read_array h arr = Ret es →
  forallb truthy es = true →
  all_unreported h es = true →
  findUnorderedProperty arr h = Ret (VNull, h).
Proof.
  intros Harr Hes Hok. unfold findUnorderedProperty. mstep.
  rewrite (read_array_length _ _ _ Harr).
  replace (Z.to_nat (Z.of_nat (length es) - 1)) with (length es - 1) by lia.
  by apply (findUnorderedProperty_loop_unreported h arr es Harr Hes es []).
Qed.

Lemma findUnorderedProperty_unreported_witness :
  findUnorderedProperty (VRef 1) store_unranked = Ret (VNull, store_unranked).
Proof.
  apply (findUnorderedProperty_unreported store_unranked (VRef 1)
           [VRef 2; VRef 3; VRef 4]); vm_compute; reflexivity.
Defined.

(** ** getPropertyValue: longer paths and missing nodes *)

Lemma split_on_nonempty sep s : split_on sep s ≠ [].
Proof.
  destruct s as [|c s]; simpl; [discriminate|].
  destruct (Ascii.eqb c sep); [discriminate|].
  destruct (split_on sep s); discriminate.
Qed.

(** Splitting a string that was joined with the separator. *)
Lemma split_on_join sep s1 s2 :
  split_on sep (s1 ++ String sep s2)%string
  = split_on sep s1 ++ split_on sep s2.
Proof.
  induction s1 as [|c s1 IH]; simpl.
  - by rewrite Ascii.eqb_refl.
  - destruct (Ascii.eqb c sep); [by rewrite IH|].
    rewrite IH. pose proof (split_on_nonempty sep s1) as Hne.
    destruct (split_on sep s1); [done|reflexivity].
Qed.

Lemma walk_valid h keys :
  closed h = true →
  ∀ v p rest, valid h v = true → walk h v keys = Ret (p, rest) →
              valid h p = true.
Proof.
  intros Hcl. induction keys as [|k keys IH]; intros v p rest Hv; simpl.
  - destruct (read_prop h v "undefined") as [q|e] eqn:Hq; [|discriminate].
    intros [= <- _]. by apply (closed_read h v "undefined").
  - destruct (read_prop h v k) as [q|e] eqn:Hq; [|discriminate].
    pose proof (closed_read h v k q Hcl Hv Hq) as Hvq.
    destruct keys as [|k' keys]; [by intros [= <- _]|].
    destruct (truthy q); [by apply IH|by intros [= <- _]].
Qed.

(** A walk that ends on a truthy value continues from there. *)
Lemma walk_continues h keys2 :
  keys2 ≠ [] →
  ∀ keys1 v p rest,
    keys1 ≠ [] → walk h v keys1 = Ret (p, rest) → truthy p = true →
    walk h v (keys1 ++ keys2) = walk h p keys2.
Proof.
  intros Hne2. induction keys1 as [|k keys1 IH]; intros v p rest Hne1;
    [done|].
  simpl. destruct (read_prop h v k) as [q|e] eqn:Hq; [|discriminate].
  destruct keys1 as [|k' keys1].
  - intros [= <- _] Hp. simpl. destruct keys2; [done|]. by rewrite Hp.
  - destruct (truthy q) eqn:Htq.
    + intros Hwalk Hp. change ((k' :: keys1) ++ keys2)
        with (k' :: keys1 ++ keys2). cbv iota.
      by apply (IH q p rest).
    + intros [= <- _] Hp. congruence.
Qed.

(** A walk that ends on a falsy value ends there on every longer path. *)
Lemma walk_stops h keys2 :
  keys2 ≠ [] →
  ∀ keys1 v p rest,
    keys1 ≠ [] → walk h v keys1 = Ret (p, rest) → truthy p = false →
    ∃ rest', walk h v (keys1 ++ keys2) = Ret (p, rest').
Proof.
  intros Hne2. induction keys1 as [|k keys1 IH]; intros v p rest Hne1;
    [done|].
  simpl. destruct (read_prop h v k) as [q|e] eqn:Hq; [|discriminate].
  destruct keys1 as [|k' keys1].
  - intros [= <- _] Hp. simpl. destruct keys2; [done|]. rewrite Hp. eauto.
  - destruct (truthy q) eqn:Htq.
    + intros Hwalk Hp. change ((k' :: keys1) ++ keys2)
        with (k' :: keys1 ++ keys2). cbv iota.
      by apply (IH q p rest).
    + intros [= <- _] Hp. change ((k' :: keys1) ++ keys2)
        with (k' :: keys1 ++ keys2). cbv iota. eauto.
Qed.

Lemma getPropertyValue_string_value h s node fuel :
  closed h = true → valid h node = true →
  length (split_on "." s) < fuel →
  value_of (getPropertyValue fuel node (VStr s) h) =
  match walk h node (split_on "." s) with
  | Ret (r, _) => Ret r
  | Err e => Err e
  end.
Proof.
  intros Hcl Hv Hfuel. rewrite getPropertyValue_string by assumption.
  by destruct (walk h node (split_on "." s)) as [[r rest]|e].
Qed.

(** X14. Paths compose: when [getPropertyValue(node, s1)] is a truthy
    value [v], the value for the joined path [s1 + '.' + s2] is the value
    of [getPropertyValue(v, s2)]. *)
Theorem getPropertyValue_composes (h h1 : store) (node v : value)
    (s1 s2 : string) (fuel : nat) :
  closed h = true → valid h node = true →
  length (split_on "." s1) + length (split_on "." s2) < fuel →
  getPropertyValue fuel node (VStr s1) h = Ret (v, h1) →
  truthy v = true →
  value_of (getPropertyValue fuel node (VStr (s1 ++ "." ++ s2)) h)
  = value_of (getPropertyValue fuel v (VStr s2) h1).
Proof.
  intros Hcl Hv Hfuel Hrun Hvt.
  rewrite getPropertyValue_string in Hrun by (try assumption; lia).
  destruct (walk h node (split_on "." s1)) as [[p rest]|e] eqn:Hwalk;
    [|discriminate].
  injection Hrun as -> <-.
  pose proof (walk_valid h _ Hcl _ _ _ Hv Hwalk) as Hvv.
  rewrite getPropertyValue_string_value;
    [|assumption|assumption|
     change (s1 ++ "." ++ s2)%string with (s1 ++ String "." s2)%string;
     rewrite split_on_join, length_app; lia].
  rewrite getPropertyValue_string_value;
    [|by apply closed_insert_strings|by apply valid_insert|lia].
  rewrite walk_insert by eauto using fresh_unused.
  change (s1 ++ "." ++ s2)%string with (s1 ++ String "." s2)%string.
  rewrite split_on_join.
  by rewrite (walk_continues h _ (split_on_nonempty _ _) _ _ _ _
                (split_on_nonempty _ _) Hwalk Hvt).
Qed.

Lemma getPropertyValue_composes_witness :
  value_of (getPropertyValue 3 (VRef 2) (VStr ("key" ++ "." ++ "name"))
              store_path)
  = value_of (getPropertyValue 3 (VRef 3) (VStr "name")
                (<[6 := CArr [VStr "key"]]> store_path)).
Proof.
  apply (getPropertyValue_composes store_path _ (VRef 2) (VRef 3)
           "key" "name" 3); first [vm_compute; reflexivity | vm_compute; lia].
Defined.

(** X15. Paths stop at a falsy value: when [getPropertyValue(node, s1)]
    is falsy, every longer path [s1 + '.' + s2] returns that same value
    and does not throw. *)
Theorem getPropertyValue_stops (h h1 : store) (node v : value)
    (s1 s2 : string) (fuel : nat) :
  closed h = true → valid h node = true →
  length (split_on "." s1) + length (split_on "." s2) < fuel →
  getPropertyValue fuel node (VStr s1) h = Ret (v, h1) →
  truthy v = false →
  value_of (getPropertyValue fuel node (VStr (s1 ++ "." ++ s2)) h) = Ret v.
Proof.
  intros Hcl Hv Hfuel Hrun Hvt.
  rewrite getPropertyValue_string in Hrun by (try assumption; lia).
  destruct (walk h node (split_on "." s1)) as [[p rest]|e] eqn:Hwalk;
    [|discriminate].
  injection Hrun as -> <-.
  rewrite getPropertyValue_string_value;
    [|assumption|assumption|
     change (s1 ++ "." ++ s2)%string with (s1 ++ String "." s2)%string;
     rewrite split_on_join, length_app; lia].
  change (s1 ++ "." ++ s2)%string with (s1 ++ String "." s2)%string.
  rewrite split_on_join.
  destruct (walk_stops h _ (split_on_nonempty "." s2) _ _ _ _
              (split_on_nonempty _ _) Hwalk Hvt) as [rest' ->].
  reflexivity.
Qed.

Lemma getPropertyValue_stops_witness :
  value_of (getPropertyValue 4 (VRef 3) (VStr ("init" ++ "." ++ "callee.name"))
              store_for_of)
  = Ret VNull.
Proof.
  apply (getPropertyValue_stops store_for_of
           (<[14 := CArr [VStr "init"]]> store_for_of) (VRef 3) VNull
           "init" "callee.name" 4);
    first [vm_compute; reflexivity | vm_compute; lia].
Defined.

(** X16. [getPropertyValue] throws when the node itself is [undefined] or
    [null], whatever the path string. *)
Theorem getPropertyValue_no_node (h : store) (node : value) (s : string)
    (fuel : nat) :
  nullish node = true →
  getPropertyValue (S fuel) node (VStr s) h = Err TypeError.
Proof.
  intros Hnode. pose proof (split_on_nonempty "." s) as Hne.
  cbn [getPropertyValue]. rewrite bind_alloc. mstep.
  cbn [read_prop]. rewrite lookup_insert_eq.
  unfold array_prop. cbn [String.eqb Ascii.eqb Bool.eqb].
  rewrite strict_eq_num, length_map.
  destruct (split_on "." s) as [|k [|k' keys]] eqn:Hs; [done| |].
  - simpl. rewrite bind_to_string. simpl. mstep.
    by rewrite (nullish_throws _ _ _ Hnode).
  - assert (Hlen : (Z.of_nat (length (k :: k' :: keys)) =? 1)%Z = false)
      by (apply Z.eqb_neq; simpl; lia).
    rewrite Hlen. rewrite bind_get_index. cbn [read_index].
    rewrite lookup_insert_eq. cbn [map elem_at nth].
    rewrite bind_to_string. cbn [read_string prim_to_string]. mstep.
    by rewrite (nullish_throws _ _ _ Hnode).
Qed.

Lemma getPropertyValue_no_node_witness :
  getPropertyValue 1 VNull (VStr "init.name") store_for_of = Err TypeError.
Proof.
  apply (getPropertyValue_no_node store_for_of VNull "init.name" 0).
  reflexivity.
Defined.

(** ** collectObjectPatternBindings on other declarators *)

Lemma read_keys_strings h v keys k :
  read_keys h v = Ret keys → In k keys → ∃ s, k = VStr s.
Proof.
  destruct v as [| | | |s|l]; simpl; try discriminate.
  - by intros [= <-] [].
  - by intros [= <-] [].
  - intros [= <-] (i & <- & _)%in_map_iff. eauto.
  - destruct (h !! l) as [[fs|es]|]; intros [= <-].
    + intros (kv & <- & _)%in_map_iff. eauto.
    + intros (i & <- & _)%in_map_iff. eauto.
    + intros [].
Qed.

(** X17. When the initialiser of the declarator has no string [name]
    (a [this], a call, a member access, ...), no key of the binding map
    matches and [collectObjectPatternBindings] returns the empty array,
    whatever the pattern holds. *)
Theorem collectObjectPatternBindings_unnamed_init (h : store)
    (node bindings : value) (keys : list value) :
  let id := prop_of h node "id" in
  let init := prop_of h node "init" in
  truthy node = true →
  has_type h id "ObjectPattern" = true →
  read_keys h bindings = Ret keys →
  truthy init = true →
  (∀ s, prop_of h init "name" ≠ VStr s) →
  collectObjectPatternBindings node bindings h = Ret ([], h).
Proof.
  intros id init Hnode Hid Hkeys Hinit Hname.
  unfold collectObjectPatternBindings. unfold_types. mstep.
  rewrite (truthy_read _ _ _ Hnode). fold id. mstep. rewrite Hid.
  cbn [negb]. mstep. rewrite bind_object_keys, Hkeys. mstep.
  rewrite (truthy_read _ _ _ Hnode). fold init. mstep.
  rewrite (truthy_read _ _ _ Hinit).
  assert (Hout : index_of (prop_of h init "name") keys = None).
  { apply index_of_none. intros Hin.
    destruct (read_keys_strings _ _ _ _ Hkeys Hin) as [s Hs].
    by apply (Hname s). }
  by rewrite Hout.
Qed.

Lemma collectObjectPatternBindings_unnamed_init_witness :
  collectObjectPatternBindings (VRef 1) (VRef 14) store_patterns
    = Ret ([], store_patterns).
Proof.
  apply (collectObjectPatternBindings_unnamed_init store_patterns
           (VRef 1) (VRef 14) [VStr "Ember"]);
    try (vm_compute; reflexivity).
  intros s. vm_compute. discriminate.
Defined.

(** X18. When the initialiser names a key of the binding map and the
    pattern holds an element without [key] (a rest element),
    [collectObjectPatternBindings] throws: the callback of [filter] reads
    [props.key.name] of every element. *)
Theorem collectObjectPatternBindings_keyless (h : store)
    (node bindings : value) (keys names props : list value) (key : string) :
  let id := prop_of h node "id" in
  let init := prop_of h node "init" in
  truthy node = true →
  has_type h id "ObjectPattern" = true →
  read_keys h bindings = Ret keys →
  truthy init = true →
  prop_of h init "name" = VStr key →
  In (VStr key) keys →
  read_array h (prop_of h bindings key) = Ret names →
  read_array h (prop_of h id "properties") = Ret props →
  existsb (keyless h) props = true →
  collectObjectPatternBindings node bindings h = Err TypeError.
Proof.
  intros id init Hnode Hid Hkeys Hinit Hname Hin Hnames Hprops Hbad.
  unfold collectObjectPatternBindings. unfold_types. mstep.
  rewrite (truthy_read _ _ _ Hnode). fold id. mstep. rewrite Hid.
  cbn [negb]. mstep. rewrite bind_object_keys, Hkeys. mstep.
  rewrite (truthy_read _ _ _ Hnode). fold init. mstep.
  rewrite (truthy_read _ _ _ Hinit), Hname.
  destruct (index_of (VStr key) keys) as [i|] eqn:Hi;
    [|by apply index_of_none in Hi].
  apply index_of_some in Hi. rewrite Hi. mstep.
  rewrite (truthy_read _ _ _ Hnode). fold id. mstep.
  rewrite (has_type_read _ _ _ "properties" Hid). mstep.
  rewrite bind_as_array, Hprops. unfold bind at 1.
  rewrite (array_filter_throws _ (keyless h)); [reflexivity| | |exact Hbad].
  - intros p Hp. rewrite bind_to_string. cbn [read_string prim_to_string].
    mstep. rewrite (read_keys_read _ _ _ key Hkeys). mstep.
    unfold keyless in Hp. destruct (nullish p) eqn:Hpn.
    + by rewrite (nullish_throws _ _ _ Hpn).
    + rewrite (nullish_read _ _ _ Hpn). mstep. simpl in Hp.
      by rewrite (nullish_throws _ _ _ Hp).
  - intros p Hp. rewrite bind_to_string. cbn [read_string prim_to_string].
    mstep. rewrite (read_keys_read _ _ _ key Hkeys). mstep.
    unfold keyless in Hp. apply orb_false_iff in Hp as [Hpn Hk].
    rewrite (nullish_read _ _ _ Hpn). mstep.
    rewrite (nullish_read _ _ _ Hk). mstep.
    rewrite bind_includes, (read_array_includes _ _ _ _ Hnames). eauto.
Qed.

Lemma collectObjectPatternBindings_keyless_witness :
  collectObjectPatternBindings (VRef 7) (VRef 14) store_patterns
    = Err TypeError.
Proof.
  apply (collectObjectPatternBindings_keyless store_patterns
           (VRef 7) (VRef 14) [VStr "Ember"] [VStr "$"] [VRef 10; VRef 11]
           "Ember");
    try (vm_compute; reflexivity).
  vm_compute. by left.
Defined.

(** ** parseCallee and getName together *)

Lemma string_append_assoc (a b c : string) :
  ((a ++ b) ++ c = a ++ b ++ c)%string.
Proof.
  induction a as [|x a IH]; [reflexivity|].
  change (String x ((a ++ b) ++ c) = String x (a ++ b ++ c))%string.
  f_equal. exact IH.
Qed.

Lemma concat_snoc (names : list string) (n : string) :
  names ≠ [] →
  String.concat "." (names ++ [n])
  = (String.concat "." names ++ "." ++ n)%string.
Proof.
  induction names as [|a names IH]; [done|]. intros _.
  destruct names as [|b names]; [reflexivity|].
  change (String.concat "." ((a :: b :: names) ++ [n]))
    with (a ++ "." ++ String.concat "." ((b :: names) ++ [n]))%string.
  rewrite IH by done.
  change (String.concat "." (a :: b :: names))
    with (a ++ "." ++ String.concat "." (b :: names))%string.
  by rewrite !string_append_assoc.
Qed.

Lemma chain_names_nonempty c : chain_names c ≠ [].
Proof. rewrite chain_names_split. discriminate. Qed.

(** On a plain chain [getName] gives the names joined by dots. *)
Lemma getName_plain_chain h c :
  ∀ v (fuel : nat),
    plain c = true → is_chain h v c = true → chain_depth c < fuel →
    getName fuel v h = Ret (VStr (String.concat "." (chain_names c)), h).
Proof.
  induction c as [n|o IH n|o IH]; intros v fuel Hplain Hc Hfuel;
    [| |discriminate]; (destruct fuel as [|fuel]; [lia|]);
    simpl in Hc, Hfuel, Hplain |- *; unfold_types; mstep.
  - apply andb_true_iff in Hc as [Hid Hname%strict_eq_true].
    rewrite Hid. mstep.
    by rewrite (has_type_read _ _ _ "name" Hid), Hname.
  - apply andb_true_iff in Hc as [Hc Hrest].
    apply andb_true_iff in Hc as [Hc Hname%strict_eq_true].
    apply andb_true_iff in Hc as [Hmem Hid].
    rewrite (has_type_other _ _ _ "Identifier" Hmem) by discriminate. mstep.
    rewrite (has_type_other _ _ _ "CallExpression" Hmem) by discriminate.
    mstep.
    rewrite (has_type_other _ _ _ "OptionalCallExpression" Hmem)
      by discriminate.
    mstep. rewrite Hmem. mstep.
    rewrite (has_type_read _ _ _ "object" Hmem).
    unfold bind at 1. rewrite (IH _ fuel Hplain Hrest) by lia.
    rewrite bind_to_string. cbn [read_string prim_to_string]. mstep.
    rewrite (has_type_read _ _ _ "property" Hmem).
    destruct fuel as [|fuel]; [lia|].
    unfold bind at 1. cbn [getName]. unfold_types. mstep. rewrite Hid. mstep.
    rewrite (has_type_read _ _ _ "name" Hid), Hname.
    rewrite bind_to_string. cbn [read_string prim_to_string].
    unfold ret. by rewrite concat_snoc by apply chain_names_nonempty.
Qed.

(** X19. For a call whose callee is a chain of plain member accesses on
    an identifier, the name [getName] gives is the array [parseCallee]
    gives, joined by dots; for a constructor call [getName] gives
    [undefined], though [parseCallee] parses it like a call. *)
Theorem getName_joins_parseCallee (h : store) (node : value) (c : chain)
    (fuel : nat) :
  plain c = true →
  is_chain h (prop_of h node "callee") c = true →
  chain_depth c < fuel →
  (has_type h node "CallExpression" = true →
   parseCallee fuel node h = Ret (map VStr (chain_names c), h)
   ∧ getName (S fuel) node h
     = Ret (VStr (String.concat "." (chain_names c)), h))
  ∧ (has_type h node "NewExpression" = true →
     parseCallee fuel node h = Ret (map VStr (chain_names c), h)
     ∧ getName (S fuel) node h = Ret (VUndefined, h)).
Proof.
  intros Hplain Hc Hfuel.
  assert (Hparse : is_call h node = true →
            parseCallee fuel node h = Ret (map VStr (chain_names c), h)).
  { intros Hcall.
    destruct (parseCallee_loop_chain h c _ [] fuel Hc Hfuel)
      as (root & Hrun & Hid & Hname).
    rewrite (parseCallee_call _ _ _ Hcall), Hrun, Hid.
    rewrite (has_type_read _ _ _ "name" Hid), Hname.
    rewrite chain_names_split. simpl.
    by rewrite rev_app_distr, <- map_rev, rev_involutive. }
  split; intros Hty.
  - split; [apply Hparse; unfold is_call; by rewrite Hty|].
    cbn [getName]. unfold_types. mstep.
    rewrite (has_type_other _ _ _ "Identifier" Hty) by discriminate. mstep.
    rewrite Hty. mstep. rewrite (has_type_read _ _ _ "callee" Hty).
    by apply getName_plain_chain.
  - split; [apply Hparse; unfold is_call; rewrite Hty; by rewrite orb_true_r|].
    cbn [getName]. unfold_types. mstep.
    rewrite (has_type_other _ _ _ "Identifier" Hty) by discriminate. mstep.
    rewrite (has_type_other _ _ _ "CallExpression" Hty) by discriminate.
    mstep.
    rewrite (has_type_other _ _ _ "OptionalCallExpression" Hty)
      by discriminate.
    mstep.
    rewrite (has_type_other _ _ _ "MemberExpression" Hty) by discriminate.
    mstep.
    by rewrite (has_type_other _ _ _ "OptionalMemberExpression" Hty)
      by discriminate.
Qed.

Lemma getName_joins_parseCallee_witness :
  (parseCallee 2 (VRef 5) store_new
     = Ret ([VStr "Ember"; VStr "Object"], store_new)
   ∧ getName 3 (VRef 5) store_new = Ret (VStr "Ember.Object", store_new))
  ∧ (parseCallee 2 (VRef 1) store_new
       = Ret ([VStr "Ember"; VStr "Object"], store_new)
     ∧ getName 3 (VRef 1) store_new = Ret (VUndefined, store_new)).
Proof.
  split.
  - apply (proj1 (getName_joins_parseCallee store_new (VRef 5)
                    (Dot (Root "Ember") "Object") 2
                    eq_refl ltac:(vm_compute; reflexivity) ltac:(simpl; lia))).
    vm_compute. reflexivity.
  - apply (proj2 (getName_joins_parseCallee store_new (VRef 1)
                    (Dot (Root "Ember") "Object") 2
                    eq_refl ltac:(vm_compute; reflexivity) ltac:(simpl; lia))).
    vm_compute. reflexivity.
Defined.

Lemma bind_inv {A B} (m : M A) (k : A → M B) h r :
  bind m k h = Ret r → ∃ a h1, m h = Ret (a, h1) ∧ k a h1 = Ret r.
Proof.
  unfold bind. destruct (m h) as [[a h1]|e]; [eauto|discriminate].
Qed.

(** X20. For a member access [getName] never answers [undefined]: the
    result is always a string, even when the object or the property has
    no name, so a missing part cannot be told from the result's type. *)
Theorem getName_member_is_string (h h' : store) (node r : value) (fuel : nat) :
  has_type h node "MemberExpression"
  || has_type h node "OptionalMemberExpression" = true →
  getName fuel node h = Ret (r, h') →
  ∃ s, r = VStr s.
Proof.
  intros Hmem. destruct fuel as [|fuel]; [discriminate|].
  assert (Hid : has_type h node "Identifier" = false).
  { apply orb_true_iff in Hmem as [H|H];
      by rewrite (has_type_other _ _ _ "Identifier" H). }
  assert (Hcall : has_type h node "CallExpression" = false).
  { apply orb_true_iff in Hmem as [H|H];
      by rewrite (has_type_other _ _ _ "CallExpression" H). }
  assert (Hopt : has_type h node "OptionalCallExpression" = false).
  { apply orb_true_iff in Hmem as [H|H];
      by rewrite (has_type_other _ _ _ "OptionalCallExpression" H). }
  cbn [getName]. unfold_types. mstep. rewrite Hid. mstep. rewrite Hcall.
  mstep. rewrite Hopt. mstep.
  assert (Hmember : (if has_type h node "MemberExpression" then ret true
                     else is_type "OptionalMemberExpression" node) h
                    = Ret (true, h)).
  { destruct (has_type h node "MemberExpression"); [reflexivity|].
    simpl in Hmem. unfold is_type, reading. by rewrite Hmem. }
  unfold bind at 1. rewrite Hmember. mstep.
  destruct (read_prop h node "object") as [o|e]; [|discriminate].
  intros (on & h1 & _ & Hrun)%bind_inv.
  apply bind_inv in Hrun as (left & h2 & _ & Hrun).
  apply bind_inv in Hrun as (p & h3 & _ & Hrun).
  apply bind_inv in Hrun as (pn & h4 & _ & Hrun).
  apply bind_inv in Hrun as (right & h5 & _ & Hrun).
  unfold ret in Hrun. injection Hrun as <- _. eauto.
Qed.

Lemma getName_member_is_string_witness :
  getName 2 (VRef 3) store_this_call
    = Ret (VStr "undefined.x", store_this_call)
  ∧ ∃ s, VStr "undefined.x" = VStr s.
Proof.
  assert (Hrun : getName 2 (VRef 3) store_this_call
                 = Ret (VStr "undefined.x", store_this_call))
    by (vm_compute; reflexivity).
  split; [exact Hrun|].
  apply (getName_member_is_string store_this_call store_this_call (VRef 3)
           (VStr "undefined.x") 2); [vm_compute; reflexivity|exact Hrun].
Defined.
